(** * The cursor input manager (package [cursor], manager.go)

    A shallow embedding of [InputManager] and of its methods [init], [Init],
    [shutdown], [Create], [lock], [lockResource] and [releaseResource].

    The manager is a Go object mutated in place; here every method is a
    computation in a small state monad over a [World] that holds the manager
    object together with the pieces of the environment the methods talk to
    (the task group, and a ghost counter and a ghost log that record calls
    into collaborators).
    A computation either returns, panics (nil dereference), or blocks for
    ever, as the Go code does.

    Logging ([Logger.With], [Infof]) has no effect on any of the modelled
    state and is left out; [Logger] is assumed non-nil. *)

From Stdlib Require Import ZArith String List Bool Lia.
From stdpp Require Import base option list gmap strings.

Local Open Scope Z_scope.
Local Open Scope string_scope.

(** ** Basic data *)

(** [time.Duration] is a signed 64-bit count of nanoseconds.  The manager
    only compares durations with zero and stores them, so no arithmetic on
    run-time values (and hence no wrap-around) is involved. *)
Definition Duration : Type := Z.
Definition Second : Duration := 1000000000.
Definition Minute : Duration := 60 * Second.

(** Go [error] values.  [errors_New] is [errors.New]; [sderr_Wrap] is
    [sderr.Wrap(cause, msg)].  A nil error is [None : option error]. *)
Inductive error : Type :=
| errors_New (msg : string)
| sderr_Wrap (cause : error) (msg : string).

Definition errNoSourceConfigured : error := errors_New "no source has been configured".
Definition errNoInputRunner : error := errors_New "no input runner available".

(** [Source] is an interface with the single method [Name]. *)
Record Source : Type := mkSource { Name : string }.

(** The input runner is an opaque collaborator; a nil runner is [None]. *)
Record Input : Type := mkInput { input_name : string }.

(** [input.Mode] is declared in package [input], outside this file.  The
    manager only ever compares a mode with [input.ModeRun], so any other
    mode is represented by its numeric code. *)
Inductive Mode : Type :=
| ModeRun
| ModeNotRun (code : nat).

Definition is_ModeRun (mode : Mode) : bool :=
  match mode with ModeRun => true | ModeNotRun _ => false end.

(** ** Configuration

    [conf.C] is a tree of settings.  [Unpack] reads the two options the
    manager recognises; an option is absent, present with a well-formed
    value, or present but malformed (then [Unpack] fails).  Everything else
    in the configuration is for the [Configure] callback. *)
Inductive option_value (A : Type) : Type :=
| Absent
| Present (a : A)
| Malformed (e : error).
Arguments Absent {A}.
Arguments Present {A} a.
Arguments Malformed {A} e.

Record Config : Type := mkConfig {
  cfg_id : option_value string;
  cfg_clean_timeout : option_value Duration;
  cfg_rest : list (string * string);
}.

(** The anonymous [settings] struct of [Create]. *)
Record settings : Type := mkSettings {
  settings_ID : string;
  settings_CleanTimeout : Duration;
}.

(** [config.Unpack(&settings)]: fields present in the configuration
    overwrite the struct, absent ones keep their initial value. *)
Definition Unpack (config : Config) (s : settings) : settings * option error :=
  match cfg_id config with
  | Malformed e => (s, Some e)
  | idv =>
    let id := match idv with Present v => v | _ => settings_ID s end in
    match cfg_clean_timeout config with
    | Malformed e => (mkSettings id (settings_CleanTimeout s), Some e)
    | Present d => (mkSettings id d, None)
    | Absent => (mkSettings id (settings_CleanTimeout s), None)
    end
  end.

(** ** Resources and the resource store *)

(** A [*resource]: its key, its reference count ([pending]) and its
    [unison.Mutex] ([true] when held).  The cursor payload plays no role in
    the manager and is left out. *)
Record resource : Type := mkResource {
  resource_key : string;
  resource_pending : nat;
  resource_lock : bool;
}.

(** The store: its own reference count, whether the durable handle has been
    closed, and the in-memory registry.  A [*resource] handed out by the
    store is identified by its key in [store_table]: all holders of the
    resource for one key alias the same table entry. *)
Record store : Type := mkStore {
  store_refCount : nat;
  store_closed : bool;
  store_table : gmap string resource;
}.

(** *** [unison.Mutex] (go-concert)

    The mutex is a one-slot channel: [TryLock] takes the slot if it is
    empty and never blocks; [Unlock] empties it. *)
Definition Mutex_TryLock (r : resource) : bool * resource :=
  if resource_lock r then (false, r)
  else (true, mkResource (resource_key r) (resource_pending r) true).

Definition Mutex_Unlock (r : resource) : resource :=
  mkResource (resource_key r) (resource_pending r) false.

(** Modelled from the spec: [resource.Retain] and [resource.Release]
    (store.go is not part of the sources at hand).  Retain increments the
    reference count; release decrements it, and a count of zero is what
    marks the resource as a pruning candidate. *)
Definition resource_Retain (r : resource) : resource :=
  mkResource (resource_key r) (S (resource_pending r)) (resource_lock r).

Definition resource_Release (r : resource) : resource :=
  mkResource (resource_key r) (Nat.pred (resource_pending r)) (resource_lock r).

(** Modelled from the spec: [store.Get] (store.go is not part of the sources
    at hand).  Returns the resource for the key, creating it unlocked on
    first access, and always increments its reference count. *)
Definition store_find (key : string) (st : store) : resource :=
  match store_table st !! key with
  | Some r => r
  | None => mkResource key 0 false
  end.

Definition store_Get (key : string) (st : store) : store :=
  mkStore (store_refCount st) (store_closed st)
          (<[key := resource_Retain (store_find key st)]> (store_table st)).

(** Modelled from the spec: store-level [Retain] and [Release] (store.go is
    not part of the sources at hand).  They count the holders of the durable
    handle; the handle is closed exactly when the count returns to zero. *)
Definition store_Retain (st : store) : store :=
  mkStore (S (store_refCount st)) (store_closed st) (store_table st).

Definition store_Release (st : store) : store :=
  match store_refCount st with
  | O => st
  | S n => mkStore n (store_closed st || (n =? 0)%nat) (store_table st)
  end.

(** ** The manager object and its world *)

(** The [StateStore] interface.  [Access] may answer differently each time
    it is called, so its outcome is a function of how many times it has been
    called before ([None] is a usable handle, [Some e] a failure). *)
Record StateStore : Type := mkStateStore {
  Access : nat → option error;
  CleanupInterval : Duration;
}.

Record InputManager : Type := mkInputManager {
  cim_StateStore : StateStore;
  cim_Type : string;
  cim_DefaultCleanTimeout : Duration;
  cim_Configure : Config → list Source * option Input * option error;
  cim_initOnce : bool;            (* sync.Once: has the function run? *)
  cim_initErr : option error;
  cim_store : option store;       (* nil until initialisation succeeded *)
}.

(** The function values a [unison.Group] is asked to run.  The manager
    launches one kind of task, the closure built in [Init]. *)
Inductive Task : Type :=
| CleanerTask.

Record World : Type := mkWorld {
  cim : InputManager;
  accessCalls : nat;             (* ghost: calls of StateStore.Access so far *)
  groupTasks : list Task;        (* tasks accepted by the group, newest first *)
  cleanerRuns : list Duration;   (* ghost: interval of each cleaner.run call *)
}.

(** ** The monad *)

Inductive outcome (A : Type) : Type :=
| Returns (a : A) (w : World)
| Panics
| Blocks.
Arguments Returns {A} a w.
Arguments Panics {A}.
Arguments Blocks {A}.

Definition M (A : Type) : Type := World → outcome A.

Definition ret {A} (a : A) : M A := λ w, Returns a w.

Definition bind {A B} (m : M A) (k : A → M B) : M B :=
  λ w, match m w with
       | Returns a w' => k a w'
       | Panics => Panics
       | Blocks => Blocks
       end.

Notation "x <- m ;; k" := (bind m (λ x, k))
  (at level 100, m at next level, right associativity).
Notation "m ;; k" := (bind m (λ _, k))
  (at level 100, right associativity).

Definition get : M World := λ w, Returns w w.
Definition modify (f : World → World) : M unit := λ w, Returns tt (f w).
Definition panic {A} : M A := λ _, Panics.
Definition block {A} : M A := λ _, Blocks.

Definition update_cim (f : InputManager → InputManager) : M unit :=
  modify (λ w, mkWorld (f (cim w)) (accessCalls w) (groupTasks w) (cleanerRuns w)).

Definition set_DefaultCleanTimeout (d : Duration) (m : InputManager) : InputManager :=
  mkInputManager (cim_StateStore m) (cim_Type m) d (cim_Configure m)
                 (cim_initOnce m) (cim_initErr m) (cim_store m).

Definition set_initOnce (b : bool) (m : InputManager) : InputManager :=
  mkInputManager (cim_StateStore m) (cim_Type m) (cim_DefaultCleanTimeout m)
                 (cim_Configure m) b (cim_initErr m) (cim_store m).

Definition set_initErr (e : option error) (m : InputManager) : InputManager :=
  mkInputManager (cim_StateStore m) (cim_Type m) (cim_DefaultCleanTimeout m)
                 (cim_Configure m) (cim_initOnce m) e (cim_store m).

Definition set_store (s : option store) (m : InputManager) : InputManager :=
  mkInputManager (cim_StateStore m) (cim_Type m) (cim_DefaultCleanTimeout m)
                 (cim_Configure m) (cim_initOnce m) (cim_initErr m) s.

(** The world with another store object behind [cim.store] and another list
    of accepted tasks. *)
Definition with_store (st : store) (tasks : list Task) (w : World) : World :=
  mkWorld (set_store (Some st) (cim w)) (accessCalls w) tasks (cleanerRuns w).

(** A method call through the [cim.store] pointer: panics when it is nil. *)
Definition on_store (f : store → store) : M unit :=
  w <- get ;;
  match cim_store (cim w) with
  | None => panic
  | Some st => update_cim (set_store (Some (f st)))
  end.

(** ** [openStore]

    Modelled from the spec: [openStore] (store.go is not part of the sources
    at hand).  It asks the state store for the durable handle; on failure it
    returns that error and no store, otherwise a fresh store owned by the
    caller (one reference, open, with nothing in the registry yet since
    resources are created on first [Get]). *)
Definition openStore (statestore : StateStore) (prefix : string)
  : M (option store * option error) :=
  λ w,
    let n := accessCalls w in
    let w' := mkWorld (cim w) (S n) (groupTasks w) (cleanerRuns w) in
    match Access statestore n with
    | Some e => Returns (None, Some e) w'
    | None => Returns (Some (mkStore 1 false ∅), None) w'
    end.

(** ** [InputManager.init] *)

(** The function passed to [initOnce.Do]. *)
Definition init_once_body : M unit :=
  w <- get ;;
  (if (cim_DefaultCleanTimeout (cim w) <=? 0)%Z
   then update_cim (set_DefaultCleanTimeout (30 * Minute))
   else ret tt) ;;
  r <- openStore (cim_StateStore (cim w)) (cim_Type (cim w)) ;;
  update_cim (set_initErr (snd r)) ;;
  match snd r with
  | Some _ => ret tt
  | None => update_cim (set_store (fst r))
  end.

(** [sync.Once.Do] runs its argument only if no call has run it before, and
    callers arriving meanwhile wait for that run to finish, so a call of
    [init] is one atomic step of the manager. *)
Definition init : M (option error) :=
  w <- get ;;
  (if cim_initOnce (cim w) then ret tt
   else init_once_body ;; update_cim (set_initOnce true)) ;;
  w' <- get ;;
  ret (cim_initErr (cim w')).

(** ** [InputManager.Init], [shutdown] and the cleaner task *)

(** A [unison.Group] either accepts a task (it will run concurrently, some
    time later) or refuses it with an error; a refused task never runs. *)
Record Group : Type := mkGroup { Go_refuses : option error }.

Definition Group_Go (group : Group) (t : Task) : M (option error) :=
  match Go_refuses group with
  | Some e => ret (Some e)
  | None =>
    modify (λ w, mkWorld (cim w) (accessCalls w) (t :: groupTasks w) (cleanerRuns w)) ;;
    ret None
  end.

Definition shutdown : M unit := on_store store_Release.

(** The interval computed by the closure before it calls [cleaner.run]. *)
Definition sweepInterval (statestore : StateStore) : Duration :=
  let interval := CleanupInterval statestore in
  if (interval <=? 0)%Z then 5 * Minute else interval.

(** Modelled from the spec: [cleaner.run] (clean.go is not part of the
    sources at hand) is the long-lived sweep loop, parameterised by the sweep
    interval.  The call is recorded with the interval it is given; the
    sweeps it performs until its context is cancelled are not part of this
    development. *)
Definition cleaner_run (interval : Duration) : M unit :=
  modify (λ w, mkWorld (cim w) (accessCalls w) (groupTasks w)
                       (cleanerRuns w ++ [interval])).

(** The closure handed to [group.Go].  Its two deferred calls run when it
    returns, last registered first: [store.Release()], then
    [cim.shutdown()].  The captured [store] is the pointer [cim.store]. *)
Definition run_task (t : Task) : M (option error) :=
  match t with
  | CleanerTask =>
    w <- get ;;
    let interval := sweepInterval (cim_StateStore (cim w)) in
    cleaner_run interval ;;
    on_store store_Release ;;
    shutdown ;;
    ret None
  end.

Definition Init (group : Group) (mode : Mode) : M (option error) :=
  if negb (is_ModeRun mode) then ret None
  else
    err <- init ;;
    match err with
    | Some e => ret (Some e)
    | None =>
      on_store store_Retain ;;
      err <- Group_Go group CleanerTask ;;
      match err with
      | Some e =>
        on_store store_Release ;;
        shutdown ;;
        ret (Some (sderr_Wrap e "Can not start registry cleanup process"))
      | None => ret None
      end
    end.

(** ** [InputManager.Create] *)

(** The [managedInput] built by [Create].  Its [manager] field points back
    to the one manager of the [World]. *)
Record managedInput : Type := mkManagedInput {
  mi_ID : string;
  mi_sources : list Source;
  mi_input : Input;
  mi_cleanTimeout : Duration;
}.

(** [cim.Configure] is a callback supplied by the input type; it is taken
    to be a function of the configuration. *)
Definition Create (config : Config) : M (option managedInput * option error) :=
  err <- init ;;
  match err with
  | Some e => ret (None, Some e)
  | None =>
    w <- get ;;
    let settings0 := mkSettings "" (cim_DefaultCleanTimeout (cim w)) in
    let '(settings, err) := Unpack config settings0 in
    match err with
    | Some e => ret (None, Some e)
    | None =>
      let '(sources, inp, err) := cim_Configure (cim w) config in
      match err with
      | Some e => ret (None, Some e)
      | None =>
        if (length sources =? 0)%nat then ret (None, Some errNoSourceConfigured)
        else match inp with
             | None => ret (None, Some errNoInputRunner)
             | Some i =>
               ret (Some (mkManagedInput (settings_ID settings) sources i
                                         (settings_CleanTimeout settings)), None)
             end
      end
    end
  end.

(** ** [InputManager.lock], [lockResource], [releaseResource] *)

(** An [input.Canceler] as one call sees it: its [Done] channel is already
    closed when the call starts, or it closes while the caller is blocked,
    or it stays open throughout.  [e] is what [Err()] then returns. *)
Inductive Canceler : Type :=
| Fired (e : error)
| FiresWhileWaiting (e : error)
| Quiet.

(** [input.Context]; only the cancellation token matters here. *)
Record Context : Type := mkContext { Cancelation : Canceler }.

(** [unison.Mutex.LockContext] (go-concert): it first returns the token's
    error if the token has already fired; otherwise it waits for whichever
    comes first, the slot becoming free or the token firing.  Run on its own,
    with nobody there to unlock, a wait on a held mutex ends only by
    cancellation. *)
Inductive wait_result : Type :=
| Acquired
| Canceled (e : error)
| Waiting.

Definition Mutex_LockContext (canceler : Canceler) (r : resource) : wait_result * resource :=
  match canceler with
  | Fired e => (Canceled e, r)
  | FiresWhileWaiting e =>
    if resource_lock r then (Canceled e, r)
    else (Acquired, mkResource (resource_key r) (resource_pending r) true)
  | Quiet =>
    if resource_lock r then (Waiting, r)
    else (Acquired, mkResource (resource_key r) (resource_pending r) true)
  end.

(** A method call on a [*resource]: the pointer is the key of the object in
    the table of [cim.store]. *)
Definition on_resource {A} (ptr : string) (f : resource → A * resource) : M A :=
  w <- get ;;
  match cim_store (cim w) with
  | None => panic
  | Some st =>
    match store_table st !! ptr with
    | None => panic
    | Some r =>
      update_cim (set_store (Some (mkStore (store_refCount st) (store_closed st)
                                           (<[ptr := snd (f r)]> (store_table st))))) ;;
      ret (fst (f r))
    end
  end.

Definition lockResource (resource : string) (canceler : Canceler) : M (option error) :=
  ok <- on_resource resource Mutex_TryLock ;;
  if negb ok then
    res <- on_resource resource (Mutex_LockContext canceler) ;;
    match res with
    | Canceled e => ret (Some e)
    | Waiting => block
    | Acquired => ret None
    end
  else ret None.

Definition lock (ctx : Context) (key : string) : M (option string * option error) :=
  on_store (store_Get key) ;;
  let resource := key in
  err <- lockResource resource (Cancelation ctx) ;;
  match err with
  | Some e =>
    on_resource resource (λ r, (tt, resource_Release r)) ;;
    ret (None, Some e)
  | None => ret (Some resource, None)
  end.

(** [Unlock] on a mutex nobody holds waits for ever. *)
Definition releaseResource (resource : string) : M unit :=
  held <- on_resource resource (λ r, (resource_lock r, r)) ;;
  (if held then on_resource resource (λ r, (tt, Mutex_Unlock r)) else block) ;;
  on_resource resource (λ r, (tt, resource_Release r)).

(** ** The key under which a source is stored *)

(** Modelled from the spec: the key a managed input uses for one of its
    sources (the function that builds it is in input.go, which is not part
    of the sources at hand).  The format is
    ["<namespace>-[<id>]-<sourceName>"], the identifier segment being
    present only when a non-empty id was configured. *)
Definition createSourceID (namespace id : string) (s : Source) : string :=
  if decide (id = "") then namespace +:+ "-" +:+ Name s
  else namespace +:+ "-[" +:+ id +:+ "]-" +:+ Name s.

(** ** Concurrent tasks

    Modelled from the spec: the life of a task of a managed input (input.go
    is not part of the sources at hand).  A running managed input starts one
    task per source; each task calls [lock] for the key of its source, runs
    the input while it holds the resource, and on every exit path calls
    [releaseResource] exactly once.

    What a task does inside [lock] and [releaseResource] is manager.go: the
    steps below are the points of those functions at which a task touches
    shared state, and between two of them any other task may run. *)
Inductive pc : Type :=
| AtGet                      (* lock: about to call cim.store.Get(key) *)
| AtTryLock                  (* lockResource: about to call TryLock *)
| AtLockContext              (* lockResource: inside LockContext *)
| AtCancelRelease (e : error)  (* lock: err != nil, about to Release *)
| Holding                    (* lock returned the resource; the input runs *)
| AtRelease                  (* releaseResource: unlocked, about to Release *)
| Finished (err : option error).

Record task : Type := mkTask {
  task_key : string;
  task_pc : pc;
}.

Definition store_put (key : string) (r : resource) (st : store) : store :=
  mkStore (store_refCount st) (store_closed st) (<[key := r]> (store_table st)).

(** One step of a task on the shared store.  [canceler] is the task's
    cancellation token as it stands when the step is taken.  [None] means
    the task cannot move: it is blocked, or it has finished. *)
Definition task_step (canceler : Canceler) (t : task) (st : store) : option (task * store) :=
  let key := task_key t in
  match task_pc t with
  | AtGet => Some (mkTask key AtTryLock, store_Get key st)
  | AtTryLock =>
    r ← store_table st !! key;
    let '(ok, r') := Mutex_TryLock r in
    Some (mkTask key (if ok then Holding else AtLockContext), store_put key r' st)
  | AtLockContext =>
    r ← store_table st !! key;
    match Mutex_LockContext canceler r with
    | (Acquired, r') => Some (mkTask key Holding, store_put key r' st)
    | (Canceled e, r') => Some (mkTask key (AtCancelRelease e), store_put key r' st)
    | (Waiting, _) => None
    end
  | AtCancelRelease e =>
    r ← store_table st !! key;
    Some (mkTask key (Finished (Some e)), store_put key (resource_Release r) st)
  | Holding =>
    r ← store_table st !! key;
    if resource_lock r then Some (mkTask key AtRelease, store_put key (Mutex_Unlock r) st)
    else None
  | AtRelease =>
    r ← store_table st !! key;
    Some (mkTask key (Finished None), store_put key (resource_Release r) st)
  | Finished _ => None
  end.

Record system : Type := mkSystem {
  sys_store : store;
  sys_tasks : list task;
}.

(** The scheduler picks task [i]; a task that cannot move leaves the
    system as it is. *)
Definition step (i : nat) (canceler : Canceler) (s : system) : system :=
  match sys_tasks s !! i with
  | None => s
  | Some t =>
    match task_step canceler t (sys_store s) with
    | Some (t', st') => mkSystem st' (<[i := t']> (sys_tasks s))
    | None => s
    end
  end.

Fixpoint run (schedule : list (nat * Canceler)) (s : system) : system :=
  match schedule with
  | [] => s
  | (i, canceler) :: rest => run rest (step i canceler s)
  end.

(** The tasks of a set of managed inputs of one manager: one per source of
    each input, keyed by [createSourceID]; all of them start at [AtGet]. *)
Definition input_tasks (namespace : string) (inp : managedInput) : list task :=
  map (λ s, mkTask (createSourceID namespace (mi_ID inp) s) AtGet) (mi_sources inp).

Definition start_tasks (namespace : string) (inputs : list managedInput) : list task :=
  concat (map (input_tasks namespace) inputs).

(** A task run on its own, from its call of [lock] until [lock] has
    returned (the task holds the resource, or has finished with an error) or
    cannot go on. *)
Fixpoint lock_steps (fuel : nat) (canceler : Canceler) (t : task) (st : store)
  : task * store :=
  match fuel with
  | O => (t, st)
  | S fuel' =>
    match task_pc t with
    | Holding | Finished _ => (t, st)
    | _ =>
      match task_step canceler t st with
      | Some (t', st') => lock_steps fuel' canceler t' st'
      | None => (t, st)
      end
    end
  end.

(** Task [i] holds, respectively waits for, the resource of [key]. *)
Definition holds (s : system) (i : nat) (key : string) : Prop :=
  ∃ t, sys_tasks s !! i = Some t ∧ task_key t = key ∧ task_pc t = Holding.

Definition waits (s : system) (i : nat) (key : string) : Prop :=
  ∃ t, sys_tasks s !! i = Some t ∧ task_key t = key ∧ task_pc t = AtLockContext.

(** ** Sequences of calls on the manager *)

Inductive call : Type :=
| CallInit
| CallCreate (config : Config)
| CallInitMode (group : Group) (mode : Mode).

(** The error a caller gets back. *)
Definition do_call (c : call) : M (option error) :=
  match c with
  | CallInit => init
  | CallCreate config => r <- Create config ;; ret (snd r)
  | CallInitMode group mode => Init group mode
  end.

Fixpoint do_calls (cs : list call) : M (list (option error)) :=
  match cs with
  | [] => ret []
  | c :: rest =>
    out <- do_call c ;;
    outs <- do_calls rest ;;
    ret (out :: outs)
  end.

(** Calls that go through [init]. *)
Definition runs_init (c : call) : bool :=
  match c with
  | CallInit | CallCreate _ => true
  | CallInitMode _ mode => is_ModeRun mode
  end.

(** A manager that went through a successful initialisation has a store. *)
Definition initialised_ok (w : World) : Prop :=
  cim_initOnce (cim w) = true → cim_initErr (cim w) = None → is_Some (cim_store (cim w)).

(** ** What can be observed of the store

    The reference count and the mutex of the resource of one key, and the
    reference count of the store itself. *)
Definition refcount (key : string) (w : World) : option nat :=
  st ← cim_store (cim w);
  r ← store_table st !! key;
  Some (resource_pending r).

Definition locked (key : string) (w : World) : option bool :=
  st ← cim_store (cim w);
  r ← store_table st !! key;
  Some (resource_lock r).

Definition refCountOf (w : World) : option nat :=
  store_refCount <$> cim_store (cim w).

(** ** A concrete manager

    A filestream-like manager as a program would set it up: a state store
    that can be opened and reports no cleanup interval, no default clean
    timeout, and a [Configure] callback that reads the paths to collect from
    the configuration. *)
Definition example_statestore : StateStore := mkStateStore (λ _, None) 0.

Definition example_configure (config : Config)
  : list Source * option Input * option error :=
  (map (λ kv, mkSource (snd kv)) (cfg_rest config), Some (mkInput "filestream"), None).

Definition example_manager : InputManager :=
  mkInputManager example_statestore "filestream" 0 example_configure false None None.

Definition example_world : World := mkWorld example_manager 0 [] [].

(** The same manager after its first [init]. *)
Definition example_world_ready : World :=
  mkWorld (mkInputManager example_statestore "filestream" (30 * Minute)
                          example_configure true None (Some (mkStore 1 false ∅)))
          1 [] [].

Definition example_config : Config :=
  mkConfig Absent Absent [("paths", "/var/log/a.log")].

(** The same manager after [Init] in run mode: the store retained for the
    cleaner, the cleaner handed to the group. *)
Definition example_world_running : World :=
  with_store (mkStore 2 false ∅) [CleanerTask] example_world_ready.

(** A configuration whose [Configure] result has neither sources nor a
    runner, for a manager whose callback returns just that. *)
Definition empty_configure (config : Config)
  : list Source * option Input * option error :=
  ([], None, None).

Definition empty_manager : InputManager :=
  mkInputManager example_statestore "filestream" 0 empty_configure false None None.

Definition empty_world : World := mkWorld empty_manager 0 [] [].

(** A manager whose [Configure] finds the sources but has no runner to
    give. *)
Definition norunner_configure (config : Config)
  : list Source * option Input * option error :=
  ([mkSource "/var/log/a.log"], None, None).

Definition norunner_world : World :=
  mkWorld (mkInputManager example_statestore "filestream" 0 norunner_configure
                          false None None) 0 [] [].

(** The same manager while some task holds the resource of one key. *)
Definition example_key : string := "filestream-/var/log/a.log".

Definition example_world_locked : World :=
  with_store (mkStore 1 false {[ example_key := mkResource example_key 1 true ]})
             [] example_world_ready.

(** A state store that fails the first time it is asked and would work
    from the second time on, and a manager on top of it. *)
Definition flaky_statestore : StateStore :=
  mkStateStore (λ n, match n with
                     | O => Some (errors_New "registry unavailable")
                     | S _ => None
                     end) 0.

Definition flaky_world : World :=
  mkWorld (mkInputManager flaky_statestore "filestream" 0 example_configure
                          false None None) 0 [] [].

(** ** The invariant of the concurrent system

    Whoever is past a successful acquisition and has not unlocked yet finds
    the mutex of its key held, and no two tasks are in that state for the
    same key. *)
Definition lock_invariant (s : system) : Prop :=
  (∀ i t, sys_tasks s !! i = Some t → task_pc t = Holding →
     ∃ r, store_table (sys_store s) !! task_key t = Some r ∧ resource_lock r = true)
  ∧ (∀ i j ti tj,
       sys_tasks s !! i = Some ti → sys_tasks s !! j = Some tj →
       task_pc ti = Holding → task_pc tj = Holding →
       task_key ti = task_key tj → i = j).

(** Three inputs configured independently of each other, all for the same
    file and without an id: their tasks compete for one key. *)
Definition competing_inputs : list managedInput :=
  let inp := mkManagedInput "" [mkSource "/var/log/a.log"] (mkInput "filestream")
                            (30 * Minute) in
  [inp; inp; inp].

Definition competing_system : system :=
  mkSystem (mkStore 1 false ∅) (start_tasks "filestream" competing_inputs).

(** Task 2 takes the lock, then task 0 arrives and has to wait. *)
Definition schedule_first_waiter : list (nat * Canceler) :=
  [(2, Quiet); (2, Quiet); (0, Quiet); (0, Quiet)]%nat.

(** Task 1 arrives and waits as well, task 2 unlocks, and task 1 is the one
    whose [LockContext] gets the mutex. *)
Definition schedule_overtake : list (nat * Canceler) :=
  [(1, Quiet); (1, Quiet); (2, Quiet); (1, Quiet)]%nat.

(** An execution in which the waiters are not served in their order of
    arrival: after [schedule_first_waiter] task 0 is waiting for the key and
    task 1 has not even asked for it; after [schedule_overtake] task 1 holds
    the key and task 0 is still waiting. *)
Definition overtaking_execution : Prop :=
  let key := "filestream-/var/log/a.log" in
  let s1 := run schedule_first_waiter competing_system in
  let s2 := run schedule_overtake s1 in
  waits s1 0 key
  ∧ sys_tasks s1 !! 1%nat = Some (mkTask key AtGet)
  ∧ holds s2 1 key
  ∧ waits s2 0 key.

(** ** Compositions of the manager's operations *)

(** What a collector does around its work: take the resource, and give it
    back with [releaseResource] if [lock] handed it out. *)
Definition lock_and_release (ctx : Context) (key : string) : M (option error) :=
  r <- lock ctx key ;;
  match fst r with
  | Some resource => releaseResource resource ;; ret None
  | None => ret (snd r)
  end.

(** Two calls of [lock], one after the other. *)
Definition lock_both (ctx1 : Context) (key1 : string) (ctx2 : Context) (key2 : string)
  : M ((option string * option error) * (option string * option error)) :=
  r1 <- lock ctx1 key1 ;;
  r2 <- lock ctx2 key2 ;;
  ret (r1, r2).

(** The resource of a key as [Get] followed by a successful [TryLock]
    leaves it. *)
Definition acquired (key : string) (st : store) : resource :=
  mkResource (resource_key (store_find key st))
             (S (resource_pending (store_find key st))) true.

(** The resource object behind a key, if the store has one. *)
Definition resource_at (key : string) (w : World) : option resource :=
  st ← cim_store (cim w);
  store_table st !! key.

(** Two worlds that differ at most in the registry of the store: same
    manager fields, same counters and logs, same group, and the same
    reference count and open/closed state of the store itself. *)
Definition same_but_registry (w w' : World) : Prop :=
  set_store None (cim w') = set_store None (cim w)
  ∧ accessCalls w' = accessCalls w
  ∧ groupTasks w' = groupTasks w
  ∧ cleanerRuns w' = cleanerRuns w
  ∧ refCountOf w' = refCountOf w
  ∧ (store_closed <$> cim_store (cim w')) = (store_closed <$> cim_store (cim w)).

(** The two answers of [lock_both], in the other order. *)
Definition swap_results {A B} (o : outcome (A * B)) : outcome (B * A) :=
  match o with
  | Returns (a, b) w => Returns (b, a) w
  | Panics => Panics
  | Blocks => Blocks
  end.

(** A world in which two files are being collected: the resource of one is
    held, the resource of the other is free. *)
Definition other_key : string := "filestream-/var/log/b.log".

Definition example_world_two_keys : World :=
  with_store (mkStore 1 false (<[ other_key := mkResource other_key 0 false ]>
                                 {[ example_key := mkResource example_key 1 true ]}))
             [] example_world_ready.

(** Whether the durable handle behind [cim.store] has been closed. *)
Definition storeClosed (w : World) : option bool :=
  store_closed <$> cim_store (cim w).

(** A configuration with a malformed [clean_timeout]. *)
Definition malformed_config : Config :=
  mkConfig Absent (Malformed (errors_New "invalid duration")) [("paths", "/var/log/a.log")].

(** ** Accounting in the concurrent system *)

(** A task owns one reference to the resource of its key from its [Get]
    until its [Release]. *)
Definition owns_reference (t : task) : bool :=
  match task_pc t with
  | AtGet | Finished _ => false
  | _ => true
  end.

Definition owned (key : string) (t : task) : nat :=
  if decide (task_key t = key) then (if owns_reference t then 1 else 0)%nat
  else 0%nat.

(** The references the tasks own on one key, all together. *)
Fixpoint outstanding (key : string) (ts : list task) : nat :=
  match ts with
  | [] => 0%nat
  | t :: rest => (owned key t + outstanding key rest)%nat
  end.

(** The reference count of a key; a key without a resource counts zero. *)
Definition pending_of (key : string) (st : store) : nat :=
  resource_pending (store_find key st).

Definition refcount_invariant (st0 : store) (s : system) : Prop :=
  ∀ key, pending_of key (sys_store s)
         = (pending_of key st0 + outstanding key (sys_tasks s))%nat.

(** No mutex of the store is held. *)
Definition all_unlocked (st : store) : Prop :=
  ∀ key r, store_table st !! key = Some r → resource_lock r = false.

(** Every held mutex is held by one of the tasks. *)
Definition holder_invariant (s : system) : Prop :=
  ∀ key r, store_table (sys_store s) !! key = Some r → resource_lock r = true →
           ∃ i, holds s i key.

Definition finished (t : task) : bool :=
  match task_pc t with
  | Finished _ => true
  | _ => false
  end.

Definition all_finished (s : system) : Prop :=
  ∀ i t, sys_tasks s !! i = Some t → finished t = true.

(** The number of steps a task may still take, at most. *)
Definition remaining (t : task) : nat :=
  match task_pc t with
  | AtGet => 5
  | AtTryLock => 4
  | AtLockContext => 3
  | Holding => 2
  | AtRelease => 1
  | AtCancelRelease _ => 1
  | Finished _ => 0
  end.

Fixpoint total_remaining (ts : list task) : nat :=
  match ts with
  | [] => 0%nat
  | t :: rest => (remaining t + total_remaining rest)%nat
  end.

(** A schedule in which no cancellation token fires. *)
Definition quiet (schedule : list (nat * Canceler)) : Prop :=
  ∀ i canceler, (i, canceler) ∈ schedule → canceler = Quiet.

(** The three competing tasks run one after the other, each from its [Get]
    to its last [Release]. *)
Definition schedule_in_turn : list (nat * Canceler) :=
  [(0, Quiet); (0, Quiet); (0, Quiet); (0, Quiet);
   (1, Quiet); (1, Quiet); (1, Quiet); (1, Quiet);
   (2, Quiet); (2, Quiet); (2, Quiet); (2, Quiet)]%nat.

(** * Properties *)

(** ** Reasoning about computations *)

Ltac munfold :=
  unfold on_resource, on_store, update_cim, Group_Go, cleaner_run, shutdown,
         bind, ret, get, modify, panic, block in *.

Lemma bind_step {A B} (m : M A) (k : A → M B) w a w1 :
  m w = Returns a w1 → bind m k w = k a w1.
Proof. unfold bind. by intros ->. Qed.

Lemma world_eta w :
  mkWorld (cim w) (accessCalls w) (groupTasks w) (cleanerRuns w) = w.
Proof. by destruct w. Qed.

Lemma store_eta st :
  mkStore (store_refCount st) (store_closed st) (store_table st) = st.
Proof. by destruct st. Qed.

Lemma resource_Release_Retain r : resource_Release (resource_Retain r) = r.
Proof. by destruct r. Qed.

(** ** Initialisation *)

(** Once the [sync.Once] has fired, [init] only reads the cached error. *)
Lemma init_cached w :
  cim_initOnce (cim w) = true → init w = Returns (cim_initErr (cim w)) w.
Proof. intros H. unfold init. munfold. by rewrite H. Qed.

(** What the first call does: one [Access], the default timeout fixed up,
    the outcome cached, and the [sync.Once] fired. *)
Lemma init_first w :
  cim_initOnce (cim w) = false →
  ∃ w1, init w = Returns (cim_initErr (cim w1)) w1
      ∧ cim_initOnce (cim w1) = true
      ∧ cim_initErr (cim w1) = Access (cim_StateStore (cim w)) (accessCalls w)
      ∧ accessCalls w1 = S (accessCalls w)
      ∧ cim_DefaultCleanTimeout (cim w1)
        = (if (cim_DefaultCleanTimeout (cim w) <=? 0)%Z then 30 * Minute
           else cim_DefaultCleanTimeout (cim w))
      ∧ (cim_initErr (cim w1) = None → cim_store (cim w1) = Some (mkStore 1 false ∅))
      ∧ cim_StateStore (cim w1) = cim_StateStore (cim w)
      ∧ cim_Configure (cim w1) = cim_Configure (cim w)
      ∧ groupTasks w1 = groupTasks w
      ∧ cleanerRuns w1 = cleanerRuns w.
Proof.
  intros H. unfold init, init_once_body, openStore. munfold. rewrite H.
  destruct (cim_DefaultCleanTimeout (cim w) <=? 0)%Z; simpl;
    destruct (Access (cim_StateStore (cim w)) (accessCalls w)) as [e|];
    simpl;
    lazymatch goal with |- ∃ w1, Returns _ ?W = _ ∧ _ => exists W end;
    simpl; repeat split; congruence.
Qed.

Lemma init_returns w : ∃ w1, init w = Returns (cim_initErr (cim w1)) w1.
Proof.
  destruct (cim_initOnce (cim w)) eqn:H.
  - exists w. by apply init_cached.
  - destruct (init_first w H) as (w1 & ? & _). eauto.
Qed.

(** [init] keeps a well-initialised manager well-initialised, always leaves
    the [sync.Once] fired, and calls [Access] at most once. *)
Lemma init_spec w r w1 :
  init w = Returns r w1 →
  r = cim_initErr (cim w1)
  ∧ cim_initOnce (cim w1) = true
  ∧ (accessCalls w1 ≤ S (accessCalls w))%nat
  ∧ (accessCalls w ≤ accessCalls w1)%nat
  ∧ (cim_initOnce (cim w) = true → w1 = w)
  ∧ (initialised_ok w → initialised_ok w1).
Proof.
  intros Hinit. destruct (cim_initOnce (cim w)) eqn:H.
  - rewrite (init_cached w H) in Hinit. injection Hinit as <- <-.
    repeat split; auto with lia.
  - destruct (init_first w H) as (w' & Hw' & Honce & Herr & Hacc & _ & Hst & _).
    rewrite Hw' in Hinit. injection Hinit as <- <-.
    repeat split; auto with lia; try congruence.
    intros _ _ Hnone. rewrite (Hst Hnone). by eexists.
Qed.

(** ** [Init] *)

(** [Init] in run mode, case by case: the cached initialisation error comes
    straight back; otherwise the store is retained and the cleaner handed to
    the group, and a refusal is answered by two releases. *)
Lemma Init_run_spec group w :
  initialised_ok w →
  ∃ e w1, init w = Returns e w1 ∧
    match e with
    | Some err => Init group ModeRun w = Returns (Some err) w1
    | None =>
      ∃ st1, cim_store (cim w1) = Some st1 ∧
        Init group ModeRun w =
        match Go_refuses group with
        | Some err =>
          Returns (Some (sderr_Wrap err "Can not start registry cleanup process"))
                  (with_store (store_Release (store_Release (store_Retain st1)))
                              (groupTasks w1) w1)
        | None =>
          Returns None (with_store (store_Retain st1) (CleanerTask :: groupTasks w1) w1)
        end
    end.
Proof.
  intros Hok. destruct (init_returns w) as [w1 Hinit].
  destruct (init_spec _ _ _ Hinit) as (_ & Honce & _ & _ & _ & Hok1).
  exists (cim_initErr (cim w1)), w1. split; [done|].
  unfold Init. simpl. rewrite (bind_step _ _ _ _ _ Hinit).
  destruct (cim_initErr (cim w1)) as [err|] eqn:Herr; [done|].
  destruct (Hok1 Hok Honce Herr) as [st1 Hst1]. exists st1. split; [done|].
  munfold. rewrite Hst1. destruct (Go_refuses group); simpl; reflexivity.
Qed.

(** ** [Create] *)

(** [Create] changes the world exactly as its call of [init] does, and hands
    a cached initialisation error straight back. *)
Lemma Create_after_init config w :
  ∃ r w1, init w = Returns (cim_initErr (cim w1)) w1
        ∧ Create config w = Returns r w1
        ∧ (∀ err, cim_initErr (cim w1) = Some err → r = (None, Some err)).
Proof.
  destruct (init_returns w) as [w1 Hinit].
  unfold Create. rewrite (bind_step _ _ _ _ _ Hinit). munfold.
  destruct (cim_initErr (cim w1)) as [err|] eqn:Herr.
  { eexists _, w1. split; [congruence|]. split; [done|]. congruence. }
  destruct (Unpack _ _) as [s [e|]].
  { eexists _, w1. split; [congruence|]. split; [done|]. congruence. }
  destruct (cim_Configure (cim w1) config) as [[sources inp] [e|]].
  { eexists _, w1. split; [congruence|]. split; [done|]. congruence. }
  destruct (length sources =? 0)%nat.
  { eexists _, w1. split; [congruence|]. split; [done|]. congruence. }
  destruct inp; eexists _, w1; (split; [congruence|]); (split; [done|]); congruence.
Qed.

(** C9.  In every mode other than run mode, [Init] returns nil and leaves
    the whole world as it found it: no initialisation, no store opened or
    retained, no task handed to the group. *)
Theorem Init_outside_run_mode_is_noop group mode w :
  mode ≠ ModeRun → Init group mode w = Returns None w.
Proof. intros Hmode. unfold Init. by destruct mode. Qed.

Lemma Init_outside_run_mode_is_noop_witness :
  ModeNotRun 1 ≠ ModeRun ∧
  ∀ w, Init (mkGroup None) (ModeNotRun 1) w = Returns None w.
Proof.
  split; [discriminate|].
  intros w. apply (Init_outside_run_mode_is_noop (mkGroup None) (ModeNotRun 1) w).
  discriminate.
Defined.

Lemma store_Release_Retain_count st :
  store_refCount (store_Release (store_Release (store_Retain st)))
  = Nat.pred (store_refCount st).
Proof. destruct st as [[|n] c t]; reflexivity. Qed.

(** C6.  In run mode, when initialisation succeeded and the group refuses
    the cleaner, [Init] returns the group's error wrapped with
    "Can not start registry cleanup process"; no task has been added to the
    group; and the store has been released twice after the one retain (the
    explicit [store.Release()] undoes the retain, [cim.shutdown()] gives up
    the manager's own reference), so its reference count ends one below
    where [Init] found it and nothing is left retained for the cleaner. *)
Theorem Init_cleaner_launch_failure group w w1 err :
  initialised_ok w →
  init w = Returns None w1 →
  Go_refuses group = Some err →
  ∃ st1 w2,
    cim_store (cim w1) = Some st1
    ∧ Init group ModeRun w
      = Returns (Some (sderr_Wrap err "Can not start registry cleanup process")) w2
    ∧ cim_store (cim w2) = Some (store_Release (store_Release (store_Retain st1)))
    ∧ refCountOf w2 = Some (Nat.pred (store_refCount st1))
    ∧ groupTasks w2 = groupTasks w1.
Proof.
  intros Hok Hinit Hgo.
  destruct (Init_run_spec group w Hok) as (e & w1' & Hinit' & Hspec).
  rewrite Hinit in Hinit'. injection Hinit' as <- <-.
  destruct Hspec as (st1 & Hst1 & HInit). rewrite Hgo in HInit.
  eexists st1, _. split; [done|]. split; [exact HInit|].
  unfold refCountOf. simpl. by rewrite store_Release_Retain_count.
Qed.

(** The first [init] of the example manager. *)
Example example_world_init : init example_world = Returns None example_world_ready.
Proof. reflexivity. Qed.

Lemma Init_cleaner_launch_failure_witness :
  ∃ st1 w2,
    cim_store (cim example_world_ready) = Some st1
    ∧ Init (mkGroup (Some (errors_New "group closed"))) ModeRun example_world
      = Returns (Some (sderr_Wrap (errors_New "group closed")
                                  "Can not start registry cleanup process")) w2
    ∧ cim_store (cim w2) = Some (store_Release (store_Release (store_Retain st1)))
    ∧ refCountOf w2 = Some (Nat.pred (store_refCount st1))
    ∧ groupTasks w2 = groupTasks example_world_ready.
Proof.
  apply (Init_cleaner_launch_failure
           (mkGroup (Some (errors_New "group closed")))
           example_world example_world_ready (errors_New "group closed")).
  - intros H. discriminate H.
  - reflexivity.
  - reflexivity.
Defined.

(** C8.  When [Init] in run mode succeeds it has handed exactly the cleaner
    task to the group, and whenever that task runs (on any later world of the
    same manager whose store is there) it calls [cleaner.run] once, with the
    interval reported by the state store's [CleanupInterval] if that is
    positive and with exactly 5 minutes otherwise. *)
Theorem cleaner_sweep_interval group w w' :
  initialised_ok w →
  Init group ModeRun w = Returns None w' →
  groupTasks w' = CleanerTask :: groupTasks w
  ∧ cim_StateStore (cim w') = cim_StateStore (cim w)
  ∧ ∀ w2, cim_StateStore (cim w2) = cim_StateStore (cim w) →
          is_Some (cim_store (cim w2)) →
          ∃ interval w3,
            run_task CleanerTask w2 = Returns None w3
            ∧ cleanerRuns w3 = (cleanerRuns w2 ++ [interval])%list
            ∧ ((CleanupInterval (cim_StateStore (cim w)) <= 0)%Z →
               interval = 5 * Minute ∧ interval = 300000000000%Z)
            ∧ ((0 < CleanupInterval (cim_StateStore (cim w)))%Z →
               interval = CleanupInterval (cim_StateStore (cim w))).
Proof.
  intros Hok HInit.
  destruct (Init_run_spec group w Hok) as (e & w1 & Hinit & Hspec).
  destruct (init_spec _ _ _ Hinit) as (_ & _ & _ & _ & Hsame & _).
  assert (groupTasks w1 = groupTasks w ∧ cim_StateStore (cim w1) = cim_StateStore (cim w))
    as [Htasks Hss].
  { destruct (cim_initOnce (cim w)) eqn:Honce.
    - by rewrite (Hsame eq_refl).
    - destruct (init_first w Honce) as (w1' & Hinit' & _ & _ & _ & _ & _ & ? & _ & ? & _).
      rewrite Hinit in Hinit'. by injection Hinit' as _ <-. }
  destruct e as [err|].
  { rewrite Hspec in HInit. discriminate. }
  destruct Hspec as (st1 & Hst1 & Hspec). rewrite Hspec in HInit.
  destruct (Go_refuses group); [discriminate|]. injection HInit as <-.
  split; [simpl; by rewrite Htasks|]. split; [done|].
  intros w2 Hss2 [st2 Hst2].
  exists (sweepInterval (cim_StateStore (cim w))). unfold run_task. munfold.
  rewrite Hss2. simpl. rewrite Hst2. simpl. eexists. split; [reflexivity|]. split; [done|].
  unfold sweepInterval. split.
  - intros Hle. apply Z.leb_le in Hle. by rewrite Hle.
  - intros Hlt. apply Z.leb_gt in Hlt. by rewrite Hlt.
Qed.

Lemma cleaner_sweep_interval_witness :
  groupTasks example_world_running = CleanerTask :: groupTasks example_world
  ∧ ∃ w3, run_task CleanerTask example_world_running = Returns None w3
        ∧ cleanerRuns w3 = [300000000000%Z].
Proof.
  destruct (cleaner_sweep_interval (mkGroup None) example_world example_world_running)
    as (Htasks & _ & Hrun).
  - intros H. discriminate H.
  - reflexivity.
  - split; [exact Htasks|].
    destruct (Hrun example_world_running) as (interval & w3 & Hw3 & Hlog & Hle & _).
    + reflexivity.
    + by eexists.
    + exists w3. split; [exact Hw3|].
      rewrite Hlog. destruct Hle as [_ ->]; [simpl; lia | reflexivity].
Defined.

(** ** [Create] *)

(** C7.  The managed input returned by [Create] has the configured
    [clean_timeout] when the configuration gives one and the manager's
    [DefaultCleanTimeout] otherwise; and the first initialisation sets
    [DefaultCleanTimeout] to 30 minutes when it finds it zero or negative
    (and leaves a positive one alone). *)
Theorem Create_clean_timeout config w :
  (∀ mi w', Create config w = Returns (Some mi, None) w' →
     mi_cleanTimeout mi
     = match cfg_clean_timeout config with
       | Present d => d
       | _ => cim_DefaultCleanTimeout (cim w')
       end)
  ∧ (cim_initOnce (cim w) = false →
     ∃ r w1, init w = Returns r w1 ∧
       cim_DefaultCleanTimeout (cim w1)
       = if (cim_DefaultCleanTimeout (cim w) <=? 0)%Z then 30 * Minute
         else cim_DefaultCleanTimeout (cim w)).
Proof.
  split.
  - intros mi w' HCreate.
    destruct (init_returns w) as [w1 Hinit].
    unfold Create in HCreate. rewrite (bind_step _ _ _ _ _ Hinit) in HCreate.
    munfold. destruct (cim_initErr (cim w1)); [discriminate|].
    unfold Unpack in HCreate.
    destruct (cfg_id config), (cfg_clean_timeout config);
      simpl in HCreate; try discriminate;
      destruct (cim_Configure (cim w1) config) as [[sources inp] [e|]];
      try discriminate;
      destruct (length sources =? 0)%nat; try discriminate;
      destruct inp; try discriminate;
      by injection HCreate as <- <-.
  - intros Honce.
    destruct (init_first w Honce) as (w1 & Hinit & _ & _ & _ & Hdct & _).
    eauto.
Qed.

Lemma Create_clean_timeout_witness :
  (∃ mi w', Create example_config example_world = Returns (Some mi, None) w'
          ∧ mi_cleanTimeout mi = 1800000000000%Z)
  ∧ ∃ r w1, init example_world = Returns r w1
          ∧ cim_DefaultCleanTimeout (cim w1) = 1800000000000%Z.
Proof.
  destruct (Create_clean_timeout example_config example_world) as [Hmi Hdct].
  split.
  - exists (mkManagedInput "" [mkSource "/var/log/a.log"] (mkInput "filestream")
                           (30 * Minute)), example_world_ready.
    assert (Create example_config example_world
            = Returns (Some (mkManagedInput "" [mkSource "/var/log/a.log"]
                                            (mkInput "filestream") (30 * Minute)), None)
                      example_world_ready) as HCreate by reflexivity.
    split; [exact HCreate|]. rewrite (Hmi _ _ HCreate). reflexivity.
  - destruct Hdct as (r & w1 & Hinit & H); [reflexivity|].
    exists r, w1. split; [exact Hinit|]. rewrite H. reflexivity.
Defined.

(** C4 as the claim words it: whenever [Configure] is reached and returns
    without error, an empty source list makes [Create] fail with
    [errNoSourceConfigured] and a nil runner makes it fail with
    [errNoInputRunner].  The statement is false where both happen at once:
    the source check comes first. *)
Lemma Create_nil_runner_without_sources :
  cim_Configure (cim empty_world) example_config = ([], None, None)
  ∧ (∃ w', Create example_config empty_world
           = Returns (None, Some errNoSourceConfigured) w')
  ∧ ¬ (∃ w', Create example_config empty_world
             = Returns (None, Some errNoInputRunner) w').
Proof.
  split; [reflexivity|]. split.
  - eexists. reflexivity.
  - intros [w' H]. vm_compute in H. discriminate H.
Qed.

(** C4, amended.  When initialisation and the unpacking of the options
    succeed and [Configure] returns without error, [Create] fails with
    [errNoSourceConfigured] if the source list is empty, and with
    [errNoInputRunner] if the source list is not empty and the runner is
    nil.  In both cases no managed input is returned, and the world is the
    one [init] left: nothing is done to the store beyond the one-time
    initialisation, and nothing at all if the manager was initialised
    before. *)
Theorem Create_validation config w w1 sources inp :
  init w = Returns None w1 →
  snd (Unpack config (mkSettings "" (cim_DefaultCleanTimeout (cim w1)))) = None →
  cim_Configure (cim w1) config = (sources, inp, None) →
  (sources = [] →
   Create config w = Returns (None, Some errNoSourceConfigured) w1)
  ∧ (sources ≠ [] → inp = None →
     Create config w = Returns (None, Some errNoInputRunner) w1)
  ∧ (cim_initOnce (cim w) = true → w1 = w).
Proof.
  intros Hinit Hunpack Hconf.
  destruct (init_spec _ _ _ Hinit) as (Herr & _ & _ & _ & Hsame & _).
  unfold Create. rewrite (bind_step _ _ _ _ _ Hinit). munfold.
  destruct (Unpack config _) as [s [e|]]; [discriminate|].
  rewrite Hconf. repeat split.
  - by intros ->.
  - intros Hne ->. by destruct sources.
  - exact Hsame.
Qed.

Lemma Create_validation_witness :
  Create example_config empty_world
  = Returns (None, Some errNoSourceConfigured)
            (mkWorld (mkInputManager example_statestore "filestream" (30 * Minute)
                                     empty_configure true None (Some (mkStore 1 false ∅)))
                     1 [] [])
  ∧ Create example_config norunner_world
    = Returns (None, Some errNoInputRunner)
              (mkWorld (mkInputManager example_statestore "filestream" (30 * Minute)
                                       norunner_configure true None
                                       (Some (mkStore 1 false ∅)))
                       1 [] []).
Proof.
  split.
  - apply (Create_validation example_config empty_world _ [] None);
      reflexivity.
  - apply (Create_validation example_config norunner_world _
                             [mkSource "/var/log/a.log"] None);
      [reflexivity.. | discriminate | reflexivity].
Defined.

(** ** Store keys *)

(** C5.  The key of a source is ["<namespace>-<sourceName>"] when the id is
    empty and ["<namespace>-[<id>]-<sourceName>"] when it is not; namespace
    "filestream" and source "/var/log/a.log" give
    "filestream-/var/log/a.log" without an id and
    "filestream-[custom]-/var/log/a.log" with the id "custom". *)
Theorem createSourceID_format namespace name :
  createSourceID namespace "" (mkSource name) = namespace +:+ "-" +:+ name
  ∧ (∀ c id, createSourceID namespace (String c id) (mkSource name)
             = namespace +:+ "-[" +:+ String c id +:+ "]-" +:+ name)
  ∧ createSourceID "filestream" "" (mkSource "/var/log/a.log")
    = "filestream-/var/log/a.log"
  ∧ createSourceID "filestream" "custom" (mkSource "/var/log/a.log")
    = "filestream-[custom]-/var/log/a.log".
Proof.
  split; [reflexivity|]. split; [|split; reflexivity].
  intros c id. unfold createSourceID. by rewrite decide_False.
Qed.

(** ** [lock] *)

Lemma set_store_twice a b m : set_store a (set_store b m) = set_store a m.
Proof. reflexivity. Qed.

(** C10.  When the mutex of the key's resource is free (or the key has no
    resource yet), [lock] succeeds whatever the cancellation token is, an
    already fired one included: it returns the resource, locked and with its
    reference count raised by one. *)
Theorem lock_free_ignores_cancellation ctx key w st :
  cim_store (cim w) = Some st →
  resource_lock (store_find key st) = false →
  ∃ w', lock ctx key w = Returns (Some key, None) w'
      ∧ locked key w' = Some true
      ∧ refcount key w' = Some (S (resource_pending (store_find key st)))
      ∧ w' = with_store
               (store_put key
                  (mkResource (resource_key (store_find key st))
                              (S (resource_pending (store_find key st))) true) st)
               (groupTasks w) w.
Proof.
  intros Hst Hfree. unfold lock, lockResource. munfold. rewrite Hst. simpl.
  rewrite lookup_insert_eq. unfold Mutex_TryLock. simpl. rewrite Hfree. simpl.
  eexists. split; [reflexivity|].
  unfold locked, refcount. simpl. rewrite lookup_insert_eq. simpl.
  repeat split. unfold with_store, store_put. simpl.
  by rewrite insert_insert_eq.
Qed.

Lemma lock_free_ignores_cancellation_witness :
  ∃ w', lock (mkContext (Fired (errors_New "context canceled")))
             example_key example_world_ready
        = Returns (Some example_key, None) w'
      ∧ locked example_key w' = Some true
      ∧ refcount example_key w' = Some 1%nat.
Proof.
  destruct (lock_free_ignores_cancellation
              (mkContext (Fired (errors_New "context canceled")))
              example_key example_world_ready (mkStore 1 false ∅))
    as (w' & Hlock & Hlocked & Hcount & _).
  - reflexivity.
  - reflexivity.
  - exists w'. split; [exact Hlock|]. split; [exact Hlocked|]. exact Hcount.
Defined.

(** C2.  When the key's resource is locked by someone else and the caller's
    token has fired (before the call or while it waits), [lock] returns the
    token's error and no resource, the lock is as it was (the caller holds
    nothing), and the reference taken by [Get] has been released: the
    reference count, and indeed the whole world, is what it was before the
    call. *)
Theorem lock_cancelled_releases ctx key w st r e :
  cim_store (cim w) = Some st →
  store_table st !! key = Some r →
  resource_lock r = true →
  Cancelation ctx = Fired e ∨ Cancelation ctx = FiresWhileWaiting e →
  ∃ w', lock ctx key w = Returns (None, Some e) w'
      ∧ refcount key w' = refcount key w
      ∧ locked key w' = locked key w
      ∧ w' = w.
Proof.
  intros Hst Hr Hheld Hfired.
  assert (lock ctx key w = Returns (None, Some e) w) as Hlock.
  { unfold lock, lockResource. munfold. rewrite Hst. simpl.
    unfold store_find. rewrite Hr. rewrite lookup_insert_eq.
    unfold Mutex_TryLock. simpl. rewrite Hheld. simpl.
    rewrite lookup_insert_eq. unfold Mutex_LockContext.
    assert (cim w = set_store (Some st) (cim w)) as Hcim.
    { destruct (cim w). simpl in *. by subst. }
    destruct Hfired as [-> | ->]; simpl; rewrite ?Hheld; simpl;
      rewrite !lookup_insert_eq; simpl; rewrite !insert_insert_eq;
      rewrite resource_Release_Retain, (insert_id _ _ _ Hr), store_eta;
      rewrite !set_store_twice, <- Hcim; by rewrite world_eta. }
  exists w. by rewrite Hlock.
Qed.

Lemma lock_cancelled_releases_witness :
  ∃ w', lock (mkContext (FiresWhileWaiting (errors_New "context canceled")))
             example_key example_world_locked
        = Returns (None, Some (errors_New "context canceled")) w'
      ∧ refcount example_key w' = Some 1%nat
      ∧ locked example_key w' = Some true
      ∧ w' = example_world_locked.
Proof.
  destruct (lock_cancelled_releases
              (mkContext (FiresWhileWaiting (errors_New "context canceled")))
              example_key example_world_locked
              (mkStore 1 false {[ example_key := mkResource example_key 1 true ]})
              (mkResource example_key 1 true) (errors_New "context canceled"))
    as (w' & Hlock & Hcount & Hlocked & Hsame).
  - reflexivity.
  - apply lookup_singleton_eq.
  - reflexivity.
  - right. reflexivity.
  - exists w'. split; [exact Hlock|].
    rewrite Hcount, Hlocked. split; [|split; [|exact Hsame]].
    + unfold refcount. simpl. by rewrite lookup_singleton_eq.
    + unfold locked. simpl. by rewrite lookup_singleton_eq.
Defined.

(** ** Initialisation happens once *)

Lemma init_full w :
  initialised_ok w →
  ∃ w1, init w = Returns (cim_initErr (cim w1)) w1
      ∧ initialised_ok w1
      ∧ cim_initOnce (cim w1) = true
      ∧ cim_StateStore (cim w1) = cim_StateStore (cim w)
      ∧ (cim_initOnce (cim w) = true → w1 = w)
      ∧ (cim_initOnce (cim w) = false →
         accessCalls w1 = S (accessCalls w)
         ∧ cim_initErr (cim w1) = Access (cim_StateStore (cim w)) (accessCalls w)).
Proof.
  intros Hok. destruct (cim_initOnce (cim w)) eqn:Honce.
  - exists w. rewrite (init_cached w Honce). by repeat split.
  - destruct (init_first w Honce)
      as (w1 & Hinit & Honce1 & Herr & Hacc & _ & Hst & Hss & _).
    exists w1. repeat split; try done.
    intros _ Hnone. rewrite (Hst Hnone). by eexists.
Qed.

(** What one call does to the initialisation state of the manager. *)
Lemma do_call_spec c w :
  initialised_ok w →
  ∃ out w1,
    do_call c w = Returns out w1
    ∧ initialised_ok w1
    ∧ cim_StateStore (cim w1) = cim_StateStore (cim w)
    ∧ (runs_init c = true →
       cim_initOnce (cim w1) = true
       ∧ (c = CallInit → out = cim_initErr (cim w1))
       ∧ (∀ e, cim_initErr (cim w1) = Some e → out = Some e))
    ∧ (cim_initOnce (cim w) = true →
       cim_initOnce (cim w1) = true
       ∧ cim_initErr (cim w1) = cim_initErr (cim w)
       ∧ accessCalls w1 = accessCalls w)
    ∧ (cim_initOnce (cim w) = false →
       (runs_init c = true
        ∧ accessCalls w1 = S (accessCalls w)
        ∧ cim_initErr (cim w1) = Access (cim_StateStore (cim w)) (accessCalls w))
       ∨ (runs_init c = false ∧ w1 = w)).
Proof.
  intros Hok.
  destruct (init_full w Hok) as (w1 & Hinit & Hok1 & Honce1 & Hss1 & Hsame & Hfirst).
  destruct c as [|config|group mode]; simpl.
  - (* init *)
    exists (cim_initErr (cim w1)), w1. split_and!; try done.
    + intros H. by rewrite (Hsame H).
    + intros H. left. by destruct (Hfirst H).
  - (* Create *)
    destruct (Create_after_init config w) as (r & w1' & Hinit' & HCreate & Herr).
    rewrite Hinit in Hinit'. injection Hinit' as _ <-.
    exists (snd r), w1. rewrite (bind_step _ _ _ _ _ HCreate).
    split_and!; try done.
    + intros _. split_and!; try done. intros e He. by rewrite (Herr e He).
    + intros H. by rewrite (Hsame H).
    + intros H. left. by destruct (Hfirst H).
  - (* Init *)
    destruct mode as [|code].
    + destruct (Init_run_spec group w Hok) as (e & w1' & Hinit' & Hspec).
      rewrite Hinit in Hinit'. injection Hinit' as <- <-.
      assert (∃ out w2,
                 Init group ModeRun w = Returns out w2
                 ∧ (∀ e, cim_initErr (cim w1) = Some e → out = Some e)
                 ∧ (w2 = w1 ∨ ∃ st tasks, w2 = with_store st tasks w1))
        as (out & w2 & HInit & Hout & Hw2).
      { destruct (cim_initErr (cim w1)) as [err|] eqn:Herr.
        - exists (Some err), w1. split; [done|]. split; [congruence | by left].
        - destruct Hspec as (st1 & _ & HInit). rewrite HInit.
          destruct (Go_refuses group);
            eexists _, _; (split; [reflexivity|]);
            (split; [discriminate | right; by eexists _, _]). }
      exists out, w2. split; [done|].
      assert (cim_initOnce (cim w2) = cim_initOnce (cim w1)
              ∧ cim_initErr (cim w2) = cim_initErr (cim w1)
              ∧ accessCalls w2 = accessCalls w1
              ∧ cim_StateStore (cim w2) = cim_StateStore (cim w1)
              ∧ initialised_ok w2) as (Ho & He & Ha & Hs & Hok2).
      { destruct Hw2 as [-> | (st & tasks & ->)]; [done|].
        repeat split. intros _ _. by eexists. }
      split_and!; try congruence.
      * exact Hok2.
      * intros _. split_and!; try congruence.
        intros e' He'. apply Hout. congruence.
      * intros H. rewrite Ho, He, Ha. by rewrite (Hsame H).
      * intros H. left. destruct (Hfirst H). split_and!; [done|congruence..].
    + exists None, w. split_and!; try done. intros H. by right.
Qed.

Lemma do_calls_spec cs : ∀ w,
  initialised_ok w →
  ∃ outs w',
    do_calls cs w = Returns outs w'
    ∧ initialised_ok w'
    ∧ cim_StateStore (cim w') = cim_StateStore (cim w)
    ∧ (cim_initOnce (cim w) = true →
       cim_initOnce (cim w') = true
       ∧ cim_initErr (cim w') = cim_initErr (cim w)
       ∧ accessCalls w' = accessCalls w)
    ∧ (cim_initOnce (cim w) = false →
       ((∃ c, c ∈ cs ∧ runs_init c = true)
        ∧ cim_initOnce (cim w') = true
        ∧ accessCalls w' = S (accessCalls w)
        ∧ cim_initErr (cim w') = Access (cim_StateStore (cim w)) (accessCalls w))
       ∨ ((∀ c, c ∈ cs → runs_init c = false) ∧ w' = w))
    ∧ (∀ n c out, cs !! n = Some c → outs !! n = Some out → runs_init c = true →
         (c = CallInit → out = cim_initErr (cim w'))
         ∧ (∀ e, cim_initErr (cim w') = Some e → out = Some e)).
Proof.
  induction cs as [|c rest IH]; intros w Hok.
  - exists [], w. split_and!; try done.
    intros _. right. split; [|done]. intros c Hc. by apply elem_of_nil in Hc.
  - destruct (do_call_spec c w Hok)
      as (out & w1 & Hcall & Hok1 & Hss1 & Hruns & Hdone & Hfresh).
    destruct (IH w1 Hok1)
      as (outs & w' & Hcalls & Hok' & Hss' & Hdone' & Hfresh' & Houts).
    exists (out :: outs), w'. split_and!.
    + simpl. rewrite (bind_step _ _ _ _ _ Hcall).
      by rewrite (bind_step _ _ _ _ _ Hcalls).
    + done.
    + congruence.
    + intros H. destruct (Hdone H) as (H1 & H2 & H3).
      destruct (Hdone' H1) as (? & ? & ?). split_and!; congruence.
    + intros H. destruct (Hfresh H) as [(Hc & Hacc & Herr) | (Hc & ->)].
      * left. destruct (Hruns Hc) as (Honce1 & _).
        destruct (Hdone' Honce1) as (? & ? & ?).
        split_and!; [|done|congruence..].
        exists c. split; [apply elem_of_cons; by left | done].
      * destruct (Hfresh' H) as [((c' & Hin & Hc') & ?) | (Hnone & ->)].
        -- left. split; [|done]. exists c'. split; [|done].
           apply elem_of_cons. by right.
        -- right. split; [|done]. intros c' [-> | Hin]%elem_of_cons; auto.
    + intros [|n] c' out' Hc' Hout' Hrun; simpl in Hc', Hout'.
      * injection Hc' as <-. injection Hout' as <-.
        destruct (Hruns Hrun) as (Honce1 & Hinit & Herr).
        destruct (Hdone' Honce1) as (_ & Heq & _). rewrite Heq. by split.
      * by apply (Houts n c' out').
Qed.

(** C3.  Over any sequence of calls of [init], [Create] and [Init] (any
    number, from any callers, in the order the [sync.Once] admits them),
    [StateStore.Access] is called at most once: not at all if the manager
    had been initialised before, and exactly once, as its next call, if it
    had not and some call goes through [init].  The outcome of that one run
    is what stays cached in [initErr]: every [init] in the sequence returns
    it, and if it is an error every [Create] and every [Init] in run mode
    returns that same error. *)
Theorem init_runs_setup_once cs w :
  initialised_ok w →
  ∃ outs w',
    do_calls cs w = Returns outs w'
    ∧ (accessCalls w ≤ accessCalls w' ≤ S (accessCalls w))%nat
    ∧ (cim_initOnce (cim w) = true →
       accessCalls w' = accessCalls w
       ∧ cim_initErr (cim w') = cim_initErr (cim w))
    ∧ (cim_initOnce (cim w) = false →
       (∃ c, c ∈ cs ∧ runs_init c = true) →
       accessCalls w' = S (accessCalls w)
       ∧ cim_initErr (cim w') = Access (cim_StateStore (cim w)) (accessCalls w))
    ∧ (∀ n c out, cs !! n = Some c → outs !! n = Some out → runs_init c = true →
         (c = CallInit → out = cim_initErr (cim w'))
         ∧ (∀ e, cim_initErr (cim w') = Some e → out = Some e)).
Proof.
  intros Hok.
  destruct (do_calls_spec cs w Hok)
    as (outs & w' & Hcalls & _ & _ & Hdone & Hfresh & Houts).
  exists outs, w'. split_and!; try done.
  - destruct (cim_initOnce (cim w)) eqn:Honce.
    + destruct (Hdone eq_refl) as (_ & _ & ->). lia.
    + destruct (Hfresh eq_refl) as [(_ & _ & -> & _) | (_ & ->)]; lia.
  - destruct (cim_initOnce (cim w)) eqn:Honce.
    + destruct (Hdone eq_refl) as (_ & _ & ->). lia.
    + destruct (Hfresh eq_refl) as [(_ & _ & -> & _) | (_ & ->)]; lia.
  - intros H. by destruct (Hdone H) as (_ & -> & ->).
  - intros H (c & Hin & Hc).
    destruct (Hfresh H) as [(_ & _ & ? & ?) | (Hnone & _)]; [done|].
    rewrite (Hnone c Hin) in Hc. discriminate.
Qed.

Lemma init_runs_setup_once_witness :
  ∃ outs w',
    do_calls [CallCreate example_config; CallInit;
              CallInitMode (mkGroup None) ModeRun; CallInit] flaky_world
    = Returns outs w'
    ∧ (accessCalls w' ≤ 1)%nat
    ∧ outs !! 3%nat = Some (cim_initErr (cim w')).
Proof.
  destruct (init_runs_setup_once
              [CallCreate example_config; CallInit;
               CallInitMode (mkGroup None) ModeRun; CallInit] flaky_world)
    as (outs & w' & Hcalls & [_ Hle] & _ & _ & Houts).
  - intros H. discriminate H.
  - exists outs, w'. split; [exact Hcalls|]. split; [exact Hle|].
    assert (do_calls [CallCreate example_config; CallInit;
                      CallInitMode (mkGroup None) ModeRun; CallInit] flaky_world
            = Returns (replicate 4 (Some (errors_New "registry unavailable")))
                      (mkWorld (mkInputManager flaky_statestore "filestream"
                                  (30 * Minute) example_configure true
                                  (Some (errors_New "registry unavailable")) None)
                               1 [] [])) as Hrun by reflexivity.
    rewrite Hrun in Hcalls. injection Hcalls as <- <-. reflexivity.
Defined.

(** ** Mutual exclusion *)

Ltac table_lookup :=
  unfold store_put, store_Get; simpl; rewrite ?lookup_insert_eq.

Ltac table_lookup_ne :=
  unfold store_put, store_Get; simpl; rewrite lookup_insert_ne by done.

(** What one step of a task does to the store and to the task: it leaves
    every other key alone, and on its own key it either acquires a mutex
    that was free, or gives up the mutex it held, or leaves the mutex as it
    is. *)
Lemma task_step_cases canceler t st t' st' :
  task_step canceler t st = Some (t', st') →
  task_key t' = task_key t
  ∧ (∀ key, key ≠ task_key t → store_table st' !! key = store_table st !! key)
  ∧ ((task_pc t' = Holding
      ∧ (∃ r, store_table st !! task_key t = Some r ∧ resource_lock r = false)
      ∧ (∃ r', store_table st' !! task_key t = Some r' ∧ resource_lock r' = true))
     ∨ (task_pc t = Holding ∧ task_pc t' ≠ Holding)
     ∨ (task_pc t ≠ Holding ∧ task_pc t' ≠ Holding
        ∧ ∀ r, store_table st !! task_key t = Some r →
               ∃ r', store_table st' !! task_key t = Some r'
                     ∧ resource_lock r' = resource_lock r)).
Proof.
  unfold task_step. intros Hstep.
  destruct (task_pc t) as [| | |e| | |err] eqn:Hpc;
    [| destruct (store_table st !! task_key t) as [r0|] eqn:Hr0;
       simpl in Hstep; [|discriminate].. |]; [| | | | | |discriminate].
  - (* Get *)
    injection Hstep as <- <-.
    split; [done|]. split; [intros key Hne; by table_lookup_ne|].
    right. right. split_and!; [done..|].
    intros r Hr. table_lookup. unfold store_find. rewrite Hr. by eexists.
  - (* TryLock *)
    unfold Mutex_TryLock in Hstep.
    destruct (resource_lock r0) eqn:Hlock; injection Hstep as <- <-;
      (split; [done|]); (split; [intros key Hne; by table_lookup_ne|]).
    + right. right. split_and!; [done..|].
      intros r [= <-]. table_lookup. by eexists.
    + left. split_and!; [done| by eexists |]. table_lookup. by eexists.
  - (* LockContext *)
    unfold Mutex_LockContext in Hstep.
    destruct canceler as [e|e|], (resource_lock r0) eqn:Hlock;
      try discriminate; injection Hstep as <- <-;
      (split; [done|]); (split; [intros key Hne; by table_lookup_ne|]).
    all: first [ right; right; split_and!; [done..|];
                 intros r [= <-]; table_lookup; by eexists
               | left; split_and!; [done| by eexists |];
                 table_lookup; by eexists ].
  - (* Release after cancellation *)
    injection Hstep as <- <-.
    split; [done|]. split; [intros key Hne; by table_lookup_ne|].
    right. right. split_and!; [done..|].
    intros r [= <-]. table_lookup. by eexists.
  - (* Unlock *)
    destruct (resource_lock r0) eqn:Hlock; [|discriminate].
    injection Hstep as <- <-.
    split; [done|]. split; [intros key Hne; by table_lookup_ne|].
    right. left. by split.
  - (* Release *)
    injection Hstep as <- <-.
    split; [done|]. split; [intros key Hne; by table_lookup_ne|].
    right. right. split_and!; [done..|].
    intros r [= <-]. table_lookup. by eexists.
Qed.

Lemma step_invariant i canceler s :
  lock_invariant s → lock_invariant (step i canceler s).
Proof.
  intros [Hheld Huniq]. unfold step.
  destruct (sys_tasks s !! i) as [t|] eqn:Ht; [|done].
  destruct (task_step canceler t (sys_store s)) as [[t' st']|] eqn:Hstep; [|done].
  destruct (task_step_cases _ _ _ _ _ Hstep) as (Hkey & Hother & Hcases).
  assert (i < length (sys_tasks s))%nat as Hi by (by eapply lookup_lt_Some).
  assert (∀ j tj, j ≠ i → <[i:=t']> (sys_tasks s) !! j = Some tj →
                  sys_tasks s !! j = Some tj) as Hold.
  { intros j tj Hne. by rewrite list_lookup_insert_ne. }
  (* a task other than [i] that holds a key still finds it locked *)
  assert (∀ j tj, j ≠ i → sys_tasks s !! j = Some tj → task_pc tj = Holding →
                  ∃ r, store_table st' !! task_key tj = Some r
                       ∧ resource_lock r = true) as Hothers.
  { intros j tj Hne Htj Hpc. destruct (Hheld j tj Htj Hpc) as (r & Hr & Hlock).
    destruct (decide (task_key tj = task_key t)) as [Heq|Hneq].
    - rewrite Heq in *.
      destruct Hcases as [(_ & (r0 & Hr0 & Hfree) & _) | [(Hpct & _) | (_ & _ & Hsame)]].
      + congruence.
      + exfalso. apply Hne. by apply (Huniq j i tj t).
      + destruct (Hsame r Hr) as (r' & Hr' & Hlock'). exists r'. split; congruence.
    - exists r. split; [|done]. by rewrite Hother. }
  (* when [i] has just acquired, nobody else holds its key *)
  assert (task_pc t' = Holding →
          ∀ j tj, j ≠ i → sys_tasks s !! j = Some tj → task_pc tj = Holding →
                  task_key tj ≠ task_key t) as Hfresh.
  { intros Hpc' j tj Hne Htj Hpc Heq.
    destruct (Hheld j tj Htj Hpc) as (r & Hr & Hlock). rewrite Heq in Hr.
    destruct Hcases as [(_ & (r0 & Hr0 & Hfree) & _) | [(_ & Hn) | (_ & Hn & _)]];
      congruence. }
  split; simpl.
  - intros j tj Htj Hpc. destruct (decide (j = i)) as [->|Hne].
    + rewrite list_lookup_insert_eq in Htj by done. injection Htj as <-.
      rewrite Hkey.
      destruct Hcases as [(_ & _ & Hnow) | [(_ & Hn) | (_ & Hn & _)]]; done.
    + apply (Hothers j tj Hne); [by apply Hold | done].
  - intros j1 j2 t1 t2 Ht1 Ht2 Hpc1 Hpc2 Heq.
    destruct (decide (j1 = i)) as [->|Hne1], (decide (j2 = i)) as [->|Hne2];
      [done| | |].
    + rewrite list_lookup_insert_eq in Ht1 by done. injection Ht1 as <-.
      exfalso. apply (Hfresh Hpc1 j2 t2 Hne2); [by apply Hold | done | congruence].
    + rewrite list_lookup_insert_eq in Ht2 by done. injection Ht2 as <-.
      exfalso. apply (Hfresh Hpc2 j1 t1 Hne1); [by apply Hold | done | congruence].
    + apply (Huniq j1 j2 t1 t2); auto.
Qed.

Lemma run_invariant schedule : ∀ s,
  lock_invariant s → lock_invariant (run schedule s).
Proof.
  induction schedule as [|[i canceler] rest IH]; intros s Hinv; [done|].
  simpl. apply IH. by apply step_invariant.
Qed.

(** Every task of a freshly started set of inputs is about to call [Get]. *)
Lemma start_tasks_pc namespace inputs i t :
  start_tasks namespace inputs !! i = Some t → task_pc t = AtGet.
Proof.
  intros Hi. apply list_elem_of_lookup_2, list_elem_of_In in Hi.
  unfold start_tasks in Hi. apply in_concat in Hi as (l & Hl & Ht).
  apply in_map_iff in Hl as (inp & <- & _).
  unfold input_tasks in Ht. by apply in_map_iff in Ht as (src & <- & _).
Qed.

Lemma start_invariant namespace inputs st :
  lock_invariant (mkSystem st (start_tasks namespace inputs)).
Proof.
  split; simpl.
  - intros i t Ht Hpc. rewrite (start_tasks_pc _ _ _ _ Ht) in Hpc. discriminate.
  - intros i j ti tj Hti _ Hpc. rewrite (start_tasks_pc _ _ _ _ Hti) in Hpc.
    discriminate.
Qed.

Lemma overtaking_execution_exists : overtaking_execution.
Proof.
  unfold overtaking_execution, waits, holds.
  split_and!; [eexists; split_and!.. | | eexists; split_and! | eexists; split_and!];
    try (vm_compute; reflexivity).
Qed.

(** The sequential [lock] is what a task does when nobody else runs between
    its steps: the same store afterwards, and the same answer. *)
Lemma lock_runs_task_steps ctx key w st :
  cim_store (cim w) = Some st →
  lock ctx key w =
  let '(t, st') := lock_steps 4 (Cancelation ctx) (mkTask key AtGet) st in
  match task_pc t with
  | Holding => Returns (Some key, None) (with_store st' (groupTasks w) w)
  | Finished (Some e) => Returns (None, Some e) (with_store st' (groupTasks w) w)
  | _ => Blocks
  end.
Proof.
  intros Hst. unfold lock, lockResource. munfold. rewrite Hst. simpl.
  rewrite !lookup_insert_eq. simpl.
  unfold lock_steps, task_step. simpl. rewrite ?lookup_insert_eq. simpl.
  unfold Mutex_TryLock. simpl.
  destruct (resource_lock (store_find key st)) eqn:Hlock; simpl;
    [|reflexivity].
  rewrite !lookup_insert_eq. simpl. unfold Mutex_LockContext.
  destruct (Cancelation ctx) as [e|e|]; simpl; rewrite ?Hlock; simpl;
    rewrite ?lookup_insert_eq; reflexivity.
Qed.

(** In the concurrent system too, a waiter whose token has fired goes from
    [LockContext] straight to its [Release] and is done: it never passes
    through [Holding], and all it changes is the reference count, which
    drops by the one its [Get] had added.  This holds whether or not the
    mutex has become free in the meantime. *)
Lemma cancelled_waiter_steps key st r e :
  store_table st !! key = Some r →
  ∃ st1,
    task_step (Fired e) (mkTask key AtLockContext) st
    = Some (mkTask key (AtCancelRelease e), st1)
    ∧ store_table st1 = store_table st
    ∧ task_step (Fired e) (mkTask key (AtCancelRelease e)) st1
      = Some (mkTask key (Finished (Some e)),
              store_put key (resource_Release r) st1).
Proof.
  intros Hr. exists (store_put key r st). unfold task_step. simpl.
  rewrite Hr. simpl. rewrite lookup_insert_eq. simpl.
  split_and!; [done | by apply insert_id | done].
Qed.

(** C1.  Whatever inputs of one manager are running (any number of them,
    with any sources, configured independently or not), whatever the store
    looked like when they started and however their steps are interleaved,
    no two tasks hold the resource of the same key at the same time.  Nothing
    is promised about the order in which waiters are served: there is an
    execution in which a task that arrived later gets the key while an
    earlier waiter is still waiting. *)
Theorem lock_mutual_exclusion namespace inputs st schedule :
  (∀ key i j,
     holds (run schedule (mkSystem st (start_tasks namespace inputs))) i key →
     holds (run schedule (mkSystem st (start_tasks namespace inputs))) j key →
     i = j)
  ∧ overtaking_execution.
Proof.
  split; [|exact overtaking_execution_exists].
  intros key i j (ti & Hti & Hki & Hpi) (tj & Htj & Hkj & Hpj).
  destruct (run_invariant schedule _ (start_invariant namespace inputs st))
    as [_ Huniq].
  apply (Huniq i j ti tj); congruence.
Qed.

Lemma lock_mutual_exclusion_witness :
  holds (run (schedule_first_waiter ++ schedule_overtake) competing_system)
        1 "filestream-/var/log/a.log"
  ∧ ¬ holds (run (schedule_first_waiter ++ schedule_overtake) competing_system)
            0 "filestream-/var/log/a.log".
Proof.
  assert (holds (run (schedule_first_waiter ++ schedule_overtake) competing_system)
                1 "filestream-/var/log/a.log") as H1.
  { eexists. split_and!; vm_compute; reflexivity. }
  split; [exact H1|]. intros H0.
  assert (0%nat = 1%nat) as Heq.
  { exact (proj1 (lock_mutual_exclusion "filestream" competing_inputs
                    (mkStore 1 false ∅)
                    (schedule_first_waiter ++ schedule_overtake))
                 "filestream-/var/log/a.log" 0%nat 1%nat H0 H1). }
  discriminate Heq.
Defined.

(** * Further properties *)

(** ** [lock] and [releaseResource], one call at a time *)

(** [lock] evaluated: on a free mutex it acquires; on a held one the token
    decides between an error and waiting for ever. *)
Lemma lock_eval ctx key w st :
  cim_store (cim w) = Some st →
  lock ctx key w =
  if resource_lock (store_find key st) then
    match Cancelation ctx with
    | Fired e | FiresWhileWaiting e => Returns (None, Some e) w
    | Quiet => Blocks
    end
  else Returns (Some key, None)
               (with_store (store_put key (acquired key st) st) (groupTasks w) w).
Proof.
  intros Hst. unfold lock, lockResource. munfold. rewrite Hst. simpl.
  rewrite !lookup_insert_eq. simpl. unfold Mutex_TryLock. simpl.
  destruct (resource_lock (store_find key st)) eqn:Hlock; simpl.
  - assert (store_table st !! key = Some (store_find key st)) as Hr.
    { unfold store_find in *. destruct (store_table st !! key); [done|].
      discriminate Hlock. }
    assert (cim w = set_store (Some st) (cim w)) as Hcim.
    { destruct (cim w). simpl in *. by subst. }
    rewrite !lookup_insert_eq. unfold Mutex_LockContext.
    destruct (Cancelation ctx) as [e|e|]; simpl; rewrite ?Hlock; simpl;
      [| |reflexivity];
      rewrite !lookup_insert_eq; simpl; rewrite !insert_insert_eq;
      rewrite resource_Release_Retain, (insert_id _ _ _ Hr), store_eta;
      rewrite !set_store_twice, <- Hcim; by rewrite world_eta.
  - unfold with_store, store_put, acquired. simpl.
    by rewrite insert_insert_eq.
Qed.

(** [releaseResource] evaluated: the holder's call unlocks and drops one
    reference; a call on a mutex nobody holds never returns. *)
Lemma releaseResource_eval ptr w st r :
  cim_store (cim w) = Some st →
  store_table st !! ptr = Some r →
  releaseResource ptr w =
  if resource_lock r then
    Returns tt (with_store
                  (store_put ptr (mkResource (resource_key r)
                                             (Nat.pred (resource_pending r)) false) st)
                  (groupTasks w) w)
  else Blocks.
Proof.
  intros Hst Hr. unfold releaseResource. munfold. rewrite Hst. simpl.
  rewrite Hr. simpl. destruct (resource_lock r); simpl; [|reflexivity].
  rewrite !lookup_insert_eq. simpl. rewrite !lookup_insert_eq. simpl.
  unfold with_store, store_put. simpl. by rewrite !insert_insert_eq.
Qed.

Lemma store_find_locked key st :
  resource_lock (store_find key st) = true →
  store_table st !! key = Some (store_find key st).
Proof.
  unfold store_find. destruct (store_table st !! key); [done|]. discriminate.
Qed.

Lemma lock_panics_without_store ctx key w :
  cim_store (cim w) = None → lock ctx key w = Panics.
Proof. intros Hst. unfold lock. munfold. by rewrite Hst. Qed.



(** X2.  Taking a free resource and giving it back leaves its reference
    count and its mutex as they were.  If the store already had the resource
    the whole world is unchanged; if [lock] had to create it, the only trace
    is the new resource itself, unlocked and with no reference. *)
Theorem lock_and_release_restores ctx key w st :
  cim_store (cim w) = Some st →
  resource_lock (store_find key st) = false →
  ∃ w', lock_and_release ctx key w = Returns None w'
      ∧ resource_at key w' = Some (store_find key st)
      ∧ w' = with_store (store_put key (store_find key st) st) (groupTasks w) w
      ∧ (is_Some (store_table st !! key) → w' = w).
Proof.
  intros Hst Hfree.
  assert (mkResource (resource_key (store_find key st))
                     (resource_pending (store_find key st)) false
          = store_find key st) as Hsame.
  { destruct (store_find key st). simpl in *. by subst. }
  assert (lock ctx key w
          = Returns (Some key, None)
                    (with_store (store_put key (acquired key st) st) (groupTasks w) w))
    as Hlock by (by rewrite (lock_eval _ _ _ _ Hst), Hfree).
  assert (releaseResource key
            (with_store (store_put key (acquired key st) st) (groupTasks w) w)
          = Returns tt (with_store (store_put key (store_find key st) st)
                                   (groupTasks w) w)) as Hrel.
  { rewrite (releaseResource_eval key _ (store_put key (acquired key st) st)
                                  (acquired key st));
      [|done|apply lookup_insert_eq].
    unfold with_store, store_put, acquired. simpl.
    by rewrite insert_insert_eq, Hsame. }
  exists (with_store (store_put key (store_find key st) st) (groupTasks w) w).
  split_and!.
  - unfold lock_and_release. rewrite (bind_step _ _ _ _ _ Hlock).
    change (bind (releaseResource key) (λ _, ret (None : option error))
                 (with_store (store_put key (acquired key st) st) (groupTasks w) w)
            = Returns None
                (with_store (store_put key (store_find key st) st) (groupTasks w) w)).
    by rewrite (bind_step _ _ _ _ _ Hrel).
  - unfold resource_at. simpl. apply lookup_insert_eq.
  - done.
  - intros [r Hr]. unfold with_store, store_put, store_find. rewrite Hr.
    rewrite (insert_id _ _ _ Hr), store_eta.
    assert (cim w = set_store (Some st) (cim w)) as <-.
    { destruct (cim w). simpl in *. by subst. }
    apply world_eta.
Qed.

Lemma lock_and_release_restores_witness :
  lock_and_release (mkContext Quiet) other_key example_world_two_keys
  = Returns None example_world_two_keys.
Proof.
  destruct (lock_and_release_restores
              (mkContext Quiet) other_key example_world_two_keys
              (mkStore 1 false (<[ other_key := mkResource other_key 0 false ]>
                                  {[ example_key := mkResource example_key 1 true ]})))
    as (w' & Hrun & _ & _ & Hsame).
  - reflexivity.
  - vm_compute. reflexivity.
  - rewrite Hrun. f_equal. apply Hsame. simpl. rewrite lookup_insert_eq. by eexists.
Defined.

Lemma same_but_registry_refl w : same_but_registry w w.
Proof. by repeat split. Qed.

(** Replacing the resource of one key changes nothing else. *)
Lemma store_put_frame key r w st :
  cim_store (cim w) = Some st →
  same_but_registry w (with_store (store_put key r st) (groupTasks w) w)
  ∧ ∀ key', key' ≠ key →
      resource_at key' (with_store (store_put key r st) (groupTasks w) w)
      = resource_at key' w.
Proof.
  intros Hst. split.
  - unfold same_but_registry, refCountOf. simpl. rewrite Hst. by repeat split.
  - intros key' Hne. unfold resource_at. simpl. rewrite Hst. simpl.
    by rewrite lookup_insert_ne.
Qed.

Lemma releaseResource_returns ptr w w' :
  releaseResource ptr w = Returns tt w' →
  ∃ st r, cim_store (cim w) = Some st
        ∧ store_table st !! ptr = Some r
        ∧ resource_lock r = true
        ∧ w' = with_store
                 (store_put ptr (mkResource (resource_key r)
                                            (Nat.pred (resource_pending r)) false) st)
                 (groupTasks w) w.
Proof.
  intros Hrel. destruct (cim_store (cim w)) as [st|] eqn:Hst.
  2: { unfold releaseResource in Hrel. munfold. rewrite Hst in Hrel. discriminate. }
  destruct (store_table st !! ptr) as [r|] eqn:Hr.
  2: { unfold releaseResource in Hrel. munfold. rewrite Hst in Hrel. simpl in Hrel.
       rewrite Hr in Hrel. discriminate. }
  rewrite (releaseResource_eval _ _ _ _ Hst Hr) in Hrel.
  destruct (resource_lock r) eqn:Hheld; [|discriminate].
  injection Hrel as <-. by exists st, r.
Qed.

(** X3.  [lock] and [releaseResource] touch nothing but the resource of
    their key: the resources of all other keys, the reference count and the
    open/closed state of the store, the manager's fields, the group and the
    logs are the same before and after a call that returns. *)
Theorem lock_and_release_touch_one_key key w w' :
  (∃ ctx r, lock ctx key w = Returns r w') ∨ releaseResource key w = Returns tt w' →
  same_but_registry w w'
  ∧ ∀ key', key' ≠ key → resource_at key' w' = resource_at key' w.
Proof.
  intros [(ctx & [res err] & Hlock) | Hrel].
  - destruct (cim_store (cim w)) as [st|] eqn:Hst.
    2: { rewrite (lock_panics_without_store _ _ _ Hst) in Hlock. discriminate. }
    rewrite (lock_eval _ _ _ _ Hst) in Hlock.
    destruct (resource_lock (store_find key st)).
    + assert (w' = w) as ->.
      { destruct (Cancelation ctx); [| |discriminate]; by injection Hlock. }
      split; [apply same_but_registry_refl | done].
    + injection Hlock as _ _ <-. by apply store_put_frame.
  - destruct (releaseResource_returns _ _ _ Hrel) as (st & r & Hst & _ & _ & ->).
    by apply store_put_frame.
Qed.

Lemma lock_and_release_touch_one_key_witness :
  ∃ w', lock (mkContext Quiet) other_key example_world_two_keys
        = Returns (Some other_key, None) w'
      ∧ resource_at example_key w' = Some (mkResource example_key 1 true).
Proof.
  assert (∃ w', lock (mkContext Quiet) other_key example_world_two_keys
                = Returns (Some other_key, None) w') as [w' Hlock].
  { eexists. vm_compute. reflexivity. }
  exists w'. split; [exact Hlock|].
  destruct (lock_and_release_touch_one_key other_key example_world_two_keys w')
    as [_ Hframe].
  - left. by exists (mkContext Quiet), (Some other_key, None).
  - rewrite (Hframe example_key); [|discriminate]. vm_compute. reflexivity.
Defined.

Lemma store_find_put_ne key key' r st :
  key ≠ key' → store_find key' (store_put key r st) = store_find key' st.
Proof. intros Hne. unfold store_find, store_put. simpl. by rewrite lookup_insert_ne. Qed.

Lemma store_put_commute key1 key2 r1 r2 st :
  key1 ≠ key2 →
  store_put key1 r1 (store_put key2 r2 st) = store_put key2 r2 (store_put key1 r1 st).
Proof. intros Hne. unfold store_put. simpl. f_equal. by apply insert_insert_ne. Qed.

(** X4.  Locks on different keys do not interfere: taking two of them in
    one order or in the other gives the same two answers and the same world
    (and if one of the two calls never returns, neither order does). *)
Theorem lock_both_commutes ctx1 key1 ctx2 key2 w :
  key1 ≠ key2 →
  lock_both ctx1 key1 ctx2 key2 w = swap_results (lock_both ctx2 key2 ctx1 key1 w).
Proof.
  intros Hne. unfold lock_both.
  destruct (cim_store (cim w)) as [st|] eqn:Hst.
  2: { unfold bind. by rewrite !(lock_panics_without_store _ _ _ Hst). }
  assert (∀ key r, cim_store (cim (with_store (store_put key r st) (groupTasks w) w))
                   = Some (store_put key r st)) as Hst' by done.
  unfold bind.
  destruct (resource_lock (store_find key1 st)) eqn:H1,
           (resource_lock (store_find key2 st)) eqn:H2,
           (Cancelation ctx1) as [e1|e1|] eqn:Hc1,
           (Cancelation ctx2) as [e2|e2|] eqn:Hc2.
  all: repeat (first [ rewrite (lock_eval _ _ _ _ Hst)
                     | rewrite (lock_eval _ _ _ _ (Hst' _ _)) ];
               rewrite ?store_find_put_ne by done;
               rewrite ?H1, ?H2, ?Hc1, ?Hc2; simpl).
  all: try reflexivity.
  all: unfold acquired; rewrite !store_find_put_ne by done;
       unfold with_store; simpl; do 2 f_equal;
       rewrite !set_store_twice; do 2 f_equal; by apply store_put_commute.
Qed.

Lemma lock_both_commutes_witness :
  lock_both (mkContext (Fired (errors_New "context canceled"))) example_key
            (mkContext Quiet) other_key example_world_two_keys
  = swap_results
      (lock_both (mkContext Quiet) other_key
                 (mkContext (Fired (errors_New "context canceled"))) example_key
                 example_world_two_keys).
Proof.
  apply (lock_both_commutes
           (mkContext (Fired (errors_New "context canceled"))) example_key
           (mkContext Quiet) other_key example_world_two_keys).
  unfold example_key, other_key. discriminate.
Defined.

(** ** [Create], all outcomes *)

(** X5.  [Create] always returns, and returns either a managed input and no
    error or an error and no managed input.  It returns a managed input
    exactly when initialisation succeeded, the options unpacked, and
    [Configure] returned without error at least one source and a runner;
    the managed input then carries exactly those sources and that runner,
    with the id and the clean timeout of the unpacked options.  Whatever
    the outcome, the world afterwards is the one its call of [init] left. *)
Theorem Create_outcome config w :
  ∃ res w1,
    init w = Returns (cim_initErr (cim w1)) w1
    ∧ Create config w = Returns res w1
    ∧ ((∃ mi, res = (Some mi, None)) ∨ (∃ e, res = (None, Some e)))
    ∧ ∀ mi, res = (Some mi, None) ↔
        cim_initErr (cim w1) = None
        ∧ ∃ s i,
            Unpack config (mkSettings "" (cim_DefaultCleanTimeout (cim w1))) = (s, None)
            ∧ cim_Configure (cim w1) config = (mi_sources mi, Some i, None)
            ∧ mi_sources mi ≠ []
            ∧ mi = mkManagedInput (settings_ID s) (mi_sources mi) i
                                  (settings_CleanTimeout s).
Proof.
  destruct (init_returns w) as [w1 Hinit].
  unfold Create. rewrite (bind_step _ _ _ _ _ Hinit). munfold.
  destruct (cim_initErr (cim w1)) as [err|] eqn:Herr.
  { eexists _, w1. split_and!; [congruence | done | right; by eexists |].
    intros mi. split; [discriminate | intros [? _]; congruence]. }
  destruct (Unpack config _) as [s [e|]] eqn:Hunpack.
  { eexists _, w1. split_and!; [congruence | done | right; by eexists |].
    intros mi. split; [discriminate | intros (_ & ? & ? & ? & _); congruence]. }
  destruct (cim_Configure (cim w1) config) as [[sources inp] [e|]] eqn:Hconf.
  { eexists _, w1. split_and!; [congruence | done | right; by eexists |].
    intros mi. split; [discriminate | intros (_ & ? & ? & _ & ? & _); congruence]. }
  destruct sources as [|src sources]; simpl.
  { eexists _, w1. split_and!; [congruence | done | right; by eexists |].
    intros mi. split; [discriminate|].
    intros (_ & s' & i' & _ & Hc & Hsrc & _). rewrite Hconf in Hc.
    injection Hc as Hc _. by rewrite <- Hc in Hsrc. }
  destruct inp as [i|].
  - eexists _, w1. split_and!; [congruence | done | left; by eexists |].
    intros mi. split.
    + intros [= <-]. split; [done|]. by exists s, i.
    + intros (_ & s' & i' & Hu & Hc & _ & ->).
      rewrite Hunpack in Hu. rewrite Hconf in Hc.
      injection Hu as <-. injection Hc as <- <-. done.
  - eexists _, w1. split_and!; [congruence | done | right; by eexists |].
    intros mi. split; [discriminate | intros (_ & ? & ? & _ & ? & _); congruence].
Qed.

(** X6.  On a manager that has been through [init], [Create] only reads:
    whatever it answers, the world after the call is the world before it.
    No resource is created, the store is not retained, nothing is handed to
    the group. *)
Theorem Create_reads_only config w :
  cim_initOnce (cim w) = true → ∃ res, Create config w = Returns res w.
Proof.
  intros Honce.
  destruct (Create_after_init config w) as (res & w1 & Hinit & HCreate & _).
  rewrite (init_cached w Honce) in Hinit. injection Hinit as _ <-. eauto.
Qed.

Lemma Create_reads_only_witness :
  ∃ res, Create example_config example_world_locked = Returns res example_world_locked.
Proof.
  apply (Create_reads_only example_config example_world_locked). reflexivity.
Defined.

(** X7.  After a successful initialisation [Create] reports the first
    thing that goes wrong and goes no further: an error of [Unpack] comes
    back as it is, whatever [Configure] would have said; an error of
    [Configure] comes back as it is, whatever sources and runner came with
    it.  In both cases nothing is returned besides the error and the world
    is the one [init] left. *)
Theorem Create_reports_first_failure config w w1 :
  init w = Returns None w1 →
  (∀ s e, Unpack config (mkSettings "" (cim_DefaultCleanTimeout (cim w1))) = (s, Some e) →
          Create config w = Returns (None, Some e) w1)
  ∧ (∀ s sources inp e,
       Unpack config (mkSettings "" (cim_DefaultCleanTimeout (cim w1))) = (s, None) →
       cim_Configure (cim w1) config = (sources, inp, Some e) →
       Create config w = Returns (None, Some e) w1).
Proof.
  intros Hinit. split.
  - intros s e Hunpack. unfold Create. rewrite (bind_step _ _ _ _ _ Hinit).
    munfold. by rewrite Hunpack.
  - intros s sources inp e Hunpack Hconf. unfold Create.
    rewrite (bind_step _ _ _ _ _ Hinit). munfold. by rewrite Hunpack, Hconf.
Qed.

Lemma Create_reports_first_failure_witness :
  Create malformed_config example_world
  = Returns (None, Some (errors_New "invalid duration")) example_world_ready.
Proof.
  destruct (Create_reports_first_failure malformed_config example_world
                                         example_world_ready) as [Hunpack _].
  - reflexivity.
  - apply (Hunpack (mkSettings "" (30 * Minute))). reflexivity.
Defined.

(** ** [Init] and the end of the cleaner *)

(** X8.  When [Init] succeeds in run mode the store carries one more
    reference than initialisation left it with, taken for the cleaner.  When
    the cleaner task later returns, its two deferred calls release the store
    twice, once for that reference and once through [shutdown] for the
    manager's own, so the count ends one below what initialisation left;
    for a store that had only the manager's reference this closes it. *)
Theorem Init_then_cleaner_exit group w w' :
  initialised_ok w →
  Init group ModeRun w = Returns None w' →
  ∃ w1 st1 w'',
    init w = Returns None w1
    ∧ cim_store (cim w1) = Some st1
    ∧ cim_store (cim w') = Some (store_Retain st1)
    ∧ run_task CleanerTask w' = Returns None w''
    ∧ cim_store (cim w'') = Some (store_Release (store_Release (store_Retain st1)))
    ∧ refCountOf w'' = Some (Nat.pred (store_refCount st1))
    ∧ (store_refCount st1 = 1%nat → storeClosed w'' = Some true).
Proof.
  intros Hok HInit.
  destruct (Init_run_spec group w Hok) as (e & w1 & Hinit & Hspec).
  destruct e as [err|]; [rewrite Hspec in HInit; discriminate|].
  destruct Hspec as (st1 & Hst1 & Hspec). rewrite Hspec in HInit.
  destruct (Go_refuses group); [discriminate|]. injection HInit as <-.
  exists w1, st1. eexists. split_and!; [done..| | | |].
  - unfold run_task. munfold. simpl. reflexivity.
  - reflexivity.
  - unfold refCountOf. simpl. by rewrite store_Release_Retain_count.
  - intros Hone. unfold storeClosed. simpl.
    destruct st1 as [n c t]. simpl in Hone. subst n. simpl.
    by rewrite orb_true_r.
Qed.

Lemma Init_then_cleaner_exit_witness :
  ∃ w'', run_task CleanerTask example_world_running = Returns None w''
       ∧ refCountOf w'' = Some 0%nat
       ∧ storeClosed w'' = Some true.
Proof.
  destruct (Init_then_cleaner_exit (mkGroup None) example_world example_world_running)
    as (w1 & st1 & w'' & Hinit & Hst1 & _ & Hrun & _ & Hcount & Hclosed).
  - intros H. discriminate H.
  - reflexivity.
  - assert (w1 = example_world_ready) as -> by (by injection Hinit).
    assert (st1 = mkStore 1 false ∅) as -> by (by injection Hst1).
    exists w''. split; [exact Hrun|]. split; [exact Hcount|].
    apply Hclosed. reflexivity.
Defined.

(** A failing first [init] leaves the [store] field alone. *)
Lemma init_failure_keeps_store w e w1 :
  init w = Returns (Some e) w1 →
  cim_store (cim w1) = cim_store (cim w) ∧ groupTasks w1 = groupTasks w.
Proof.
  intros Hinit. destruct (cim_initOnce (cim w)) eqn:Honce.
  - rewrite (init_cached w Honce) in Hinit. by injection Hinit as _ <-.
  - revert Hinit. unfold init, init_once_body, openStore. munfold. rewrite Honce.
    destruct (cim_DefaultCleanTimeout (cim w) <=? 0)%Z; simpl;
      destruct (Access (cim_StateStore (cim w)) (accessCalls w)); simpl;
      intros Hinit; [|discriminate Hinit| |discriminate Hinit];
      by injection Hinit as _ <-.
Qed.

(** X9.  When initialisation fails, now or cached from before, [Init] in
    run mode hands that error back as it is, without wrapping it, and does
    nothing else: the store field is what it was, no reference is taken and
    no task goes to the group. *)
Theorem Init_with_failed_init group w e w1 :
  init w = Returns (Some e) w1 →
  Init group ModeRun w = Returns (Some e) w1
  ∧ cim_store (cim w1) = cim_store (cim w)
  ∧ groupTasks w1 = groupTasks w.
Proof.
  intros Hinit. split.
  - unfold Init. simpl. by rewrite (bind_step _ _ _ _ _ Hinit).
  - by apply (init_failure_keeps_store w e w1).
Qed.

Lemma Init_with_failed_init_witness :
  ∃ w1, Init (mkGroup None) ModeRun flaky_world
        = Returns (Some (errors_New "registry unavailable")) w1
      ∧ cim_store (cim w1) = None
      ∧ groupTasks w1 = [].
Proof.
  eexists.
  apply (Init_with_failed_init (mkGroup None) flaky_world
                               (errors_New "registry unavailable")).
  reflexivity.
Defined.

(** ** Defaults are positive *)

(** X10.  The interval the cleaner is started with is always strictly
    positive, whatever the state store reports.  Likewise, a managed input
    created by the call that initialises the manager, from a configuration
    without [clean_timeout], has a strictly positive clean timeout,
    whatever [DefaultCleanTimeout] was set to. *)
Theorem default_durations_positive statestore config w :
  (0 < sweepInterval statestore)%Z
  ∧ (cim_initOnce (cim w) = false →
     cfg_clean_timeout config = Absent →
     ∀ mi w', Create config w = Returns (Some mi, None) w' →
              (0 < mi_cleanTimeout mi)%Z).
Proof.
  split.
  - unfold sweepInterval.
    destruct (CleanupInterval statestore <=? 0)%Z eqn:Hle; [reflexivity|].
    by apply Z.leb_gt in Hle.
  - intros Honce Habsent mi w' HCreate.
    destruct (init_first w Honce) as (w1 & Hinit & _ & _ & _ & Hdct & _).
    assert (0 < cim_DefaultCleanTimeout (cim w1))%Z as Hpos.
    { rewrite Hdct.
      destruct (cim_DefaultCleanTimeout (cim w) <=? 0)%Z eqn:Hle; [reflexivity|].
      by apply Z.leb_gt in Hle. }
    unfold Create in HCreate. rewrite (bind_step _ _ _ _ _ Hinit) in HCreate.
    munfold. destruct (cim_initErr (cim w1)); [discriminate|].
    unfold Unpack in HCreate. rewrite Habsent in HCreate.
    destruct (cfg_id config); simpl in HCreate; try discriminate;
      destruct (cim_Configure (cim w1) config) as [[sources inp] [e|]];
      try discriminate;
      destruct (length sources =? 0)%nat; try discriminate;
      destruct inp; try discriminate;
      by injection HCreate as <- <-.
Qed.

Lemma default_durations_positive_witness :
  (0 < sweepInterval example_statestore)%Z
  ∧ ∃ mi w', Create example_config example_world = Returns (Some mi, None) w'
           ∧ (0 < mi_cleanTimeout mi)%Z.
Proof.
  destruct (default_durations_positive example_statestore example_config example_world)
    as [Hsweep Hmi].
  split; [exact Hsweep|].
  exists (mkManagedInput "" [mkSource "/var/log/a.log"] (mkInput "filestream")
                         (30 * Minute)), example_world_ready.
  assert (Create example_config example_world
          = Returns (Some (mkManagedInput "" [mkSource "/var/log/a.log"]
                                          (mkInput "filestream") (30 * Minute)), None)
                    example_world_ready) as HCreate by reflexivity.
  split; [exact HCreate|].
  apply (Hmi eq_refl eq_refl _ _ HCreate).
Defined.

(** ** The concurrent system: references, held mutexes, progress *)

Lemma outstanding_insert key ts : ∀ i t t',
  ts !! i = Some t →
  (outstanding key (<[i:=t']> ts) + owned key t
   = outstanding key ts + owned key t')%nat.
Proof.
  induction ts as [|t0 ts IH]; intros [|i] t t' Ht; simpl in *; try done.
  - injection Ht as ->. lia.
  - specialize (IH i t t' Ht). lia.
Qed.

Lemma outstanding_ge key ts : ∀ i t,
  ts !! i = Some t → (owned key t ≤ outstanding key ts)%nat.
Proof.
  induction ts as [|t0 ts IH]; intros [|i] t Ht; simpl in *; try done.
  - injection Ht as ->. lia.
  - specialize (IH i t Ht). lia.
Qed.

Lemma outstanding_start namespace inputs key :
  outstanding key (start_tasks namespace inputs) = 0%nat.
Proof.
  assert (∀ ts, (∀ i t, ts !! i = Some t → task_pc t = AtGet) →
                outstanding key ts = 0%nat) as Hzero.
  { induction ts as [|t ts IH]; intros Hpc; [done|]. simpl.
    rewrite IH by (intros i t' Ht'; apply (Hpc (S i) t' Ht')).
    unfold owned, owns_reference. rewrite (Hpc 0%nat t eq_refl).
    by destruct (decide _). }
  apply Hzero. intros i t. apply start_tasks_pc.
Qed.

Lemma pending_of_put key r st : pending_of key (store_put key r st) = resource_pending r.
Proof.
  unfold pending_of, store_find, store_put. simpl. by rewrite lookup_insert_eq.
Qed.

Lemma pending_of_lookup key r st :
  store_table st !! key = Some r → pending_of key st = resource_pending r.
Proof. intros Hr. unfold pending_of, store_find. by rewrite Hr. Qed.

Lemma pending_of_same key st st' :
  store_table st' !! key = store_table st !! key →
  pending_of key st' = pending_of key st.
Proof. intros Heq. unfold pending_of, store_find. by rewrite Heq. Qed.

Lemma pending_present key st :
  (1 ≤ pending_of key st)%nat → ∃ r, store_table st !! key = Some r.
Proof.
  unfold pending_of, store_find.
  destruct (store_table st !! key) as [r|]; [eauto | simpl; lia].
Qed.

Lemma pending_of_Get key st :
  pending_of key (store_Get key st) = S (pending_of key st).
Proof.
  unfold pending_of, store_find, store_Get. simpl. by rewrite lookup_insert_eq.
Qed.

(** One step of a task moves its own key's count with the reference it
    owns, and leaves all other counts alone. *)
Lemma task_step_pending canceler t st t' st' :
  task_step canceler t st = Some (t', st') →
  (owned (task_key t) t ≤ pending_of (task_key t) st)%nat →
  ∀ key, (pending_of key st' + owned key t = pending_of key st + owned key t')%nat.
Proof.
  intros Hstep Hown key.
  destruct (task_step_cases _ _ _ _ _ Hstep) as (Hkey & Hother & _).
  unfold owned in *. rewrite Hkey.
  destruct (decide (task_key t = key)) as [<-|Hne].
  2: { rewrite (pending_of_same key st st') by (apply Hother; congruence). lia. }
  rewrite decide_True in Hown by done.
  unfold task_step in Hstep. unfold owns_reference in *.
  destruct (task_pc t) as [| | |e| | |err] eqn:Hpc;
    [| destruct (store_table st !! task_key t) as [r0|] eqn:Hr0;
       simpl in Hstep; [|discriminate].. |]; [| | | | | |discriminate].
  - injection Hstep as <- <-. simpl. rewrite pending_of_Get. lia.
  - unfold Mutex_TryLock in Hstep.
    destruct (resource_lock r0); injection Hstep as <- <-; simpl;
      rewrite pending_of_put, (pending_of_lookup _ _ _ Hr0); simpl; lia.
  - unfold Mutex_LockContext in Hstep.
    destruct canceler as [e|e|], (resource_lock r0);
      try discriminate; injection Hstep as <- <-; simpl;
      rewrite pending_of_put, (pending_of_lookup _ _ _ Hr0); simpl; lia.
  - injection Hstep as <- <-. simpl.
    rewrite pending_of_put. rewrite (pending_of_lookup _ _ _ Hr0) in *. simpl. lia.
  - destruct (resource_lock r0); [|discriminate]. injection Hstep as <- <-. simpl.
    rewrite pending_of_put, (pending_of_lookup _ _ _ Hr0); simpl; lia.
  - injection Hstep as <- <-. simpl.
    rewrite pending_of_put. rewrite (pending_of_lookup _ _ _ Hr0) in *. simpl. lia.
Qed.

Lemma step_refcount st0 i canceler s :
  refcount_invariant st0 s → refcount_invariant st0 (step i canceler s).
Proof.
  intros Hinv. unfold step.
  destruct (sys_tasks s !! i) as [t|] eqn:Ht; [|done].
  destruct (task_step canceler t (sys_store s)) as [[t' st']|] eqn:Hstep; [|done].
  intros key. simpl.
  assert (owned (task_key t) t ≤ pending_of (task_key t) (sys_store s))%nat as Hown.
  { rewrite (Hinv (task_key t)).
    pose proof (outstanding_ge (task_key t) _ _ _ Ht). lia. }
  pose proof (task_step_pending _ _ _ _ _ Hstep Hown key) as Hp.
  pose proof (outstanding_insert key _ _ _ t' Ht) as Ho.
  specialize (Hinv key). lia.
Qed.

Lemma run_refcount st0 schedule : ∀ s,
  refcount_invariant st0 s → refcount_invariant st0 (run schedule s).
Proof.
  induction schedule as [|[i canceler] rest IH]; intros s Hinv; [done|].
  simpl. apply IH. by apply step_refcount.
Qed.

Lemma start_refcount namespace inputs st :
  refcount_invariant st (mkSystem st (start_tasks namespace inputs)).
Proof. intros key. simpl. rewrite outstanding_start. lia. Qed.

Lemma outstanding_finished key ts :
  (∀ i t, ts !! i = Some t → finished t = true) → outstanding key ts = 0%nat.
Proof.
  induction ts as [|t ts IH]; intros Hfin; [done|]. simpl.
  rewrite IH by (intros i t' Ht'; apply (Hfin (S i) t' Ht')).
  pose proof (Hfin 0%nat t eq_refl) as Ht.
  unfold owned, owns_reference, finished in *.
  destruct (task_pc t); try discriminate. by destruct (decide _).
Qed.

(** X11.  However the tasks of any set of inputs are interleaved, the
    reference count of every key is what it was when they started plus the
    number of tasks that are between their [Get] and their [Release] on that
    key.  So a resource somebody holds, waits for or is about to release
    always has a count of at least one, and once every task has finished all
    counts are back where they started: no path through [lock] and
    [releaseResource] leaks or double-releases a reference. *)
Theorem references_are_accounted namespace inputs st schedule :
  (∀ key,
     pending_of key (sys_store (run schedule (mkSystem st (start_tasks namespace inputs))))
     = (pending_of key st
        + outstanding key
            (sys_tasks (run schedule (mkSystem st (start_tasks namespace inputs)))))%nat)
  ∧ (∀ i t,
       sys_tasks (run schedule (mkSystem st (start_tasks namespace inputs))) !! i = Some t →
       owns_reference t = true →
       (1 ≤ pending_of (task_key t)
              (sys_store (run schedule (mkSystem st (start_tasks namespace inputs)))))%nat)
  ∧ (all_finished (run schedule (mkSystem st (start_tasks namespace inputs))) →
     ∀ key,
       pending_of key (sys_store (run schedule (mkSystem st (start_tasks namespace inputs))))
       = pending_of key st).
Proof.
  pose proof (run_refcount st schedule _ (start_refcount namespace inputs st)) as Hinv.
  split_and!.
  - exact Hinv.
  - intros i t Ht Hown. rewrite (Hinv (task_key t)).
    pose proof (outstanding_ge (task_key t) _ _ _ Ht) as Hge.
    unfold owned in Hge. rewrite decide_True, Hown in Hge by done. lia.
  - intros Hfin key. rewrite (Hinv key), (outstanding_finished key _ Hfin). lia.
Qed.

Lemma references_are_accounted_witness :
  (1 ≤ pending_of "filestream-/var/log/a.log"
         (sys_store (run (schedule_first_waiter ++ schedule_overtake) competing_system)))%nat.
Proof.
  apply (proj1 (proj2 (references_are_accounted
                         "filestream" competing_inputs (mkStore 1 false ∅)
                         (schedule_first_waiter ++ schedule_overtake)))
               0%nat (mkTask "filestream-/var/log/a.log" AtLockContext)).
  - vm_compute. reflexivity.
  - reflexivity.
Defined.

Lemma store_Get_lookup key st :
  store_table (store_Get key st) !! key = Some (resource_Retain (store_find key st)).
Proof. unfold store_Get. simpl. apply lookup_insert_eq. Qed.

(** A mutex that is held after a task's step on its key was either just
    acquired by that task, or held before by somebody else. *)
Lemma task_step_locked canceler t st t' st' :
  task_step canceler t st = Some (t', st') →
  ∀ r', store_table st' !! task_key t = Some r' → resource_lock r' = true →
        task_pc t' = Holding
        ∨ (task_pc t ≠ Holding
           ∧ ∃ r, store_table st !! task_key t = Some r ∧ resource_lock r = true).
Proof.
  unfold task_step. intros Hstep r' Hr' Hlock'.
  destruct (task_pc t) as [| | |e| | |err] eqn:Hpc;
    [| destruct (store_table st !! task_key t) as [r0|] eqn:Hr0;
       simpl in Hstep; [|discriminate].. |]; [| | | | | |discriminate].
  - injection Hstep as <- <-. right. split; [done|].
    rewrite store_Get_lookup in Hr'. injection Hr' as <-. simpl in Hlock'.
    exists (store_find (task_key t) st). split; [|done].
    by apply store_find_locked.
  - unfold Mutex_TryLock in Hstep.
    destruct (resource_lock r0) eqn:Hlock; injection Hstep as <- <-.
    + right. split; [done|]. by exists r0.
    + by left.
  - unfold Mutex_LockContext in Hstep.
    destruct canceler as [e|e|], (resource_lock r0) eqn:Hlock;
      try discriminate; injection Hstep as <- <-.
    all: try (by left).
    all: right; split; [done|]; exists r0; split; [done|].
    all: try done.
    all: unfold store_put in Hr'; simpl in Hr'; rewrite lookup_insert_eq in Hr';
         injection Hr' as <-; congruence.
  - injection Hstep as <- <-. right. split; [done|].
    unfold store_put in Hr'. simpl in Hr'. rewrite lookup_insert_eq in Hr'.
    injection Hr' as <-. by exists r0.
  - destruct (resource_lock r0); [|discriminate]. injection Hstep as <- <-.
    unfold store_put in Hr'. simpl in Hr'. rewrite lookup_insert_eq in Hr'.
    injection Hr' as <-. discriminate.
  - injection Hstep as <- <-. right. split; [done|].
    unfold store_put in Hr'. simpl in Hr'. rewrite lookup_insert_eq in Hr'.
    injection Hr' as <-. by exists r0.
Qed.

Lemma step_holder i canceler s :
  lock_invariant s → holder_invariant s → holder_invariant (step i canceler s).
Proof.
  intros [_ Huniq] Hinv. unfold step.
  destruct (sys_tasks s !! i) as [t|] eqn:Ht; [|done].
  destruct (task_step canceler t (sys_store s)) as [[t' st']|] eqn:Hstep; [|done].
  destruct (task_step_cases _ _ _ _ _ Hstep) as (Hkey & Hother & _).
  assert (i < length (sys_tasks s))%nat as Hi by (by eapply lookup_lt_Some).
  intros key r' Hr' Hlock'. simpl in Hr'. unfold holds. simpl.
  assert (∀ j, j ≠ i → holds s j key →
               ∃ t0, <[i:=t']> (sys_tasks s) !! j = Some t0
                     ∧ task_key t0 = key ∧ task_pc t0 = Holding) as Hkeep.
  { intros j Hne (tj & Htj & Hkj & Hpj). exists tj.
    by rewrite list_lookup_insert_ne. }
  destruct (decide (key = task_key t)) as [->|Hne].
  - destruct (task_step_locked _ _ _ _ _ Hstep r' Hr' Hlock')
      as [Hnow | (Hnot & r & Hr & Hlock)].
    + exists i, t'. by rewrite list_lookup_insert_eq.
    + destruct (Hinv _ r Hr Hlock) as (j & Hj). exists j. apply Hkeep; [|done].
      intros ->. destruct Hj as (tj & Htj & _ & Hpj). congruence.
  - rewrite Hother in Hr' by done.
    destruct (Hinv _ r' Hr' Hlock') as (j & Hj). exists j. apply Hkeep; [|done].
    intros ->. destruct Hj as (tj & Htj & Hkj & _). congruence.
Qed.

Lemma run_holder schedule : ∀ s,
  lock_invariant s → holder_invariant s → holder_invariant (run schedule s).
Proof.
  induction schedule as [|[i canceler] rest IH]; intros s Hlock Hinv; [done|].
  simpl. apply IH; [by apply step_invariant | by apply step_holder].
Qed.

(** X12.  If no mutex was held when the tasks started then, however they
    are interleaved, every mutex that is held is held by a task that is
    between a successful [lock] and its [releaseResource]; in particular,
    once every task has finished no mutex is left held. *)
Theorem held_mutexes_have_holders namespace inputs st schedule :
  all_unlocked st →
  holder_invariant (run schedule (mkSystem st (start_tasks namespace inputs)))
  ∧ (all_finished (run schedule (mkSystem st (start_tasks namespace inputs))) →
     all_unlocked (sys_store (run schedule (mkSystem st (start_tasks namespace inputs))))).
Proof.
  intros Hfree.
  assert (holder_invariant (run schedule (mkSystem st (start_tasks namespace inputs))))
    as Hinv.
  { apply run_holder; [apply start_invariant|].
    intros key r Hr Hlock. simpl in Hr. rewrite (Hfree key r Hr) in Hlock.
    discriminate. }
  split; [exact Hinv|].
  intros Hfin key r Hr. destruct (resource_lock r) eqn:Hlock; [|done].
  destruct (Hinv key r Hr Hlock) as (i & t & Ht & _ & Hpc).
  specialize (Hfin i t Ht). unfold finished in Hfin. rewrite Hpc in Hfin.
  discriminate.
Qed.

Lemma schedule_in_turn_finishes : all_finished (run schedule_in_turn competing_system).
Proof.
  intros i t Ht.
  do 3 (destruct i as [|i]; [vm_compute in Ht; by injection Ht as <-|]).
  vm_compute in Ht. discriminate.
Qed.

Lemma held_mutexes_have_holders_witness :
  all_unlocked (sys_store (run schedule_in_turn competing_system)).
Proof.
  destruct (held_mutexes_have_holders "filestream" competing_inputs
              (mkStore 1 false ∅) schedule_in_turn) as [_ Hfree].
  - intros key r Hr. simpl in Hr. rewrite lookup_empty in Hr. discriminate Hr.
  - apply Hfree. exact schedule_in_turn_finishes.
Defined.

Lemma run_app schedule1 schedule2 s :
  run (schedule1 ++ schedule2)%list s = run schedule2 (run schedule1 s).
Proof.
  revert s. induction schedule1 as [|[i canceler] rest IH]; intros s; [done|].
  simpl. apply IH.
Qed.

(** Every step a task takes brings it closer to its end. *)
Lemma task_step_remaining canceler t st t' st' :
  task_step canceler t st = Some (t', st') → (remaining t' < remaining t)%nat.
Proof.
  unfold task_step, remaining. intros Hstep.
  destruct (task_pc t) as [| | |e| | |err] eqn:Hpc;
    [| destruct (store_table st !! task_key t) as [r0|] eqn:Hr0;
       simpl in Hstep; [|discriminate].. |]; [| | | | | |discriminate].
  - injection Hstep as <- <-. simpl. lia.
  - unfold Mutex_TryLock in Hstep.
    destruct (resource_lock r0); injection Hstep as <- <-; simpl; lia.
  - unfold Mutex_LockContext in Hstep.
    destruct canceler as [e|e|], (resource_lock r0);
      try discriminate; injection Hstep as <- <-; simpl; lia.
  - injection Hstep as <- <-. simpl. lia.
  - destruct (resource_lock r0); [|discriminate].
    injection Hstep as <- <-. simpl. lia.
  - injection Hstep as <- <-. simpl. lia.
Qed.

Lemma total_remaining_insert ts : ∀ i t t',
  ts !! i = Some t →
  (total_remaining (<[i:=t']> ts) + remaining t
   = total_remaining ts + remaining t')%nat.
Proof.
  induction ts as [|t0 ts IH]; intros [|i] t t' Ht; simpl in *; try done.
  - injection Ht as ->. lia.
  - specialize (IH i t t' Ht). lia.
Qed.

Lemma total_remaining_zero ts :
  total_remaining ts = 0%nat → ∀ i t, ts !! i = Some t → finished t = true.
Proof.
  induction ts as [|t0 ts IH]; intros Hzero [|i] t Ht; simpl in *; try done.
  - injection Ht as ->. unfold remaining, finished in *.
    destruct (task_pc t); simpl in Hzero; (done || lia).
  - apply (IH ltac:(lia) i t Ht).
Qed.

Lemma total_remaining_pos ts :
  (0 < total_remaining ts)%nat →
  ∃ i t, ts !! i = Some t ∧ finished t = false.
Proof.
  induction ts as [|t0 ts IH]; simpl; [lia|]. intros Hpos.
  destruct (finished t0) eqn:Hfin.
  - assert (remaining t0 = 0%nat) as Hzero.
    { unfold remaining, finished in *. by destruct (task_pc t0). }
    destruct IH as (i & t & Ht & Hnot); [lia|]. by exists (S i), t.
  - by exists 0%nat, t0.
Qed.

(** In a state the system can reach, an unfinished task means that some
    task can take a step even if no token ever fires: whoever is blocked is
    waiting for a mutex, and the holder of that mutex can go on. *)
Lemma some_task_can_step st0 s :
  lock_invariant s → holder_invariant s → refcount_invariant st0 s →
  (∃ i t, sys_tasks s !! i = Some t ∧ finished t = false) →
  ∃ j tj, sys_tasks s !! j = Some tj
          ∧ is_Some (task_step Quiet tj (sys_store s)).
Proof.
  intros [Hheld _] Hholder Hcount (i & t & Ht & Hfin).
  assert (owns_reference t = true →
          ∃ r, store_table (sys_store s) !! task_key t = Some r) as Hpresent.
  { intros Hown. apply pending_present. rewrite (Hcount (task_key t)).
    pose proof (outstanding_ge (task_key t) _ _ _ Ht) as Hge.
    unfold owned in Hge. rewrite decide_True, Hown in Hge by done. lia. }
  assert (∀ j tj, sys_tasks s !! j = Some tj → task_pc tj = Holding →
                  is_Some (task_step Quiet tj (sys_store s))) as Hholding.
  { intros j tj Htj Hpc. destruct (Hheld j tj Htj Hpc) as (r & Hr & Hlock).
    unfold task_step. rewrite Hpc, Hr. simpl. rewrite Hlock. by eexists. }
  unfold finished, owns_reference in *.
  destruct (task_pc t) as [| | |e| | |err] eqn:Hpc; [| | | | | |discriminate].
  - exists i, t. split; [done|]. unfold task_step. rewrite Hpc. by eexists.
  - destruct (Hpresent eq_refl) as (r & Hr). exists i, t. split; [done|].
    unfold task_step. rewrite Hpc, Hr. simpl.
    destruct (Mutex_TryLock r). by eexists.
  - destruct (Hpresent eq_refl) as (r & Hr).
    destruct (resource_lock r) eqn:Hlock.
    + destruct (Hholder _ r Hr Hlock) as (j & tj & Htj & _ & Hpj).
      exists j, tj. split; [done|]. by apply (Hholding j).
    + exists i, t. split; [done|]. unfold task_step. rewrite Hpc, Hr. simpl.
      unfold Mutex_LockContext. rewrite Hlock. by eexists.
  - destruct (Hpresent eq_refl) as (r & Hr). exists i, t. split; [done|].
    unfold task_step. rewrite Hpc, Hr. simpl. by eexists.
  - exists i, t. split; [done|]. by apply (Hholding i).
  - destruct (Hpresent eq_refl) as (r & Hr). exists i, t. split; [done|].
    unfold task_step. rewrite Hpc, Hr. simpl. by eexists.
Qed.

Lemma can_finish_from st0 : ∀ n s,
  lock_invariant s → holder_invariant s → refcount_invariant st0 s →
  (total_remaining (sys_tasks s) ≤ n)%nat →
  ∃ rest, quiet rest ∧ all_finished (run rest s).
Proof.
  induction n as [|n IH]; intros s Hlock Hholder Hcount Hn.
  - exists []. split; [intros i c Hin; by apply elem_of_nil in Hin|].
    assert (total_remaining (sys_tasks s) = 0%nat) as Hzero by lia.
    intros i t Ht. simpl in Ht. apply (total_remaining_zero _ Hzero i t Ht).
  - destruct (decide (total_remaining (sys_tasks s) = 0%nat)) as [Hzero|Hpos].
    { exists []. split; [intros i c Hin; by apply elem_of_nil in Hin|].
      intros i t Ht. simpl in Ht. apply (total_remaining_zero _ Hzero i t Ht). }
    destruct (some_task_can_step st0 s Hlock Hholder Hcount) as (j & tj & Htj & Hstep).
    { apply total_remaining_pos. lia. }
    destruct Hstep as [[t' st'] Hstep].
    destruct (IH (step j Quiet s)) as (rest & Hquiet & Hfin).
    + by apply step_invariant.
    + by apply step_holder.
    + by apply step_refcount.
    + unfold step. rewrite Htj, Hstep. simpl.
      pose proof (total_remaining_insert _ _ _ t' Htj).
      pose proof (task_step_remaining _ _ _ _ _ Hstep). lia.
    + exists ((j, Quiet) :: rest). split; [|done].
      intros i c [[= -> ->] | Hin]%elem_of_cons; [done|]. by apply (Hquiet i).
Qed.

(** X13.  If no mutex was held when the tasks started, the system never
    gets stuck: from every state it can reach there is a way on, with no
    cancellation token firing at all, that lets every task finish.  A task
    blocked in [lock] is only ever waiting for a holder that can itself go
    on and release. *)
Theorem can_always_finish namespace inputs st schedule :
  all_unlocked st →
  ∃ rest, quiet rest
        ∧ all_finished (run (schedule ++ rest)%list
                            (mkSystem st (start_tasks namespace inputs))).
Proof.
  intros Hfree.
  destruct (can_finish_from st
              (total_remaining
                 (sys_tasks (run schedule (mkSystem st (start_tasks namespace inputs)))))
              (run schedule (mkSystem st (start_tasks namespace inputs))))
    as (rest & Hquiet & Hfin).
  - apply run_invariant, start_invariant.
  - apply run_holder; [apply start_invariant|].
    intros key r Hr Hlock. simpl in Hr. rewrite (Hfree key r Hr) in Hlock.
    discriminate.
  - apply run_refcount, start_refcount.
  - done.
  - exists rest. split; [done|]. by rewrite run_app.
Qed.

Lemma can_always_finish_witness :
  ∃ rest, quiet rest
        ∧ all_finished (run ((schedule_first_waiter ++ schedule_overtake) ++ rest)%list
                            competing_system).
Proof.
  apply (can_always_finish "filestream" competing_inputs (mkStore 1 false ∅)
                           (schedule_first_waiter ++ schedule_overtake)%list).
  intros key r Hr. simpl in Hr. rewrite lookup_empty in Hr. discriminate Hr.
Defined.
